(** * Spurilo: the GPX statistics pipeline of [open] (src/src/lib.rs and
    src/crates/spurilo/src/lib.rs).

    Numbers: the Rust code computes with [f64]; distances and elevations are
    modelled here as [Z] (whole metres), so the comparisons [> 3.0] and
    [> 30.0] become [3 <? d] and [30 <? d].  The geodesic distance, the file
    system with the GPX parser, the reverse-geocoding service, the graphics
    device and the line simplifier of the [geo] crate are collaborators the
    code calls; they are fields of an environment record. *)

From Stdlib Require Import ZArith List String Ascii Bool Lia Sorting.Sorted.
Import ListNotations.
Open Scope Z_scope.

(** ** Data model (the [gpx] crate's types and [GpxInfo]) *)

Record Point := mkPoint { lng : Z; lat : Z }.

Record Waypoint := mkWaypoint {
  wp_point : Point;
  elevation : option Z;
  time : option Z
}.

Record Segment := mkSegment { points : list Waypoint }.

Record Track := mkTrack {
  track_name : option string;
  track_description : option string;
  segments : list Segment
}.

Record Metadata := mkMetadata {
  meta_name : option string;
  meta_description : option string
}.

Record Gpx := mkGpx {
  metadata : option Metadata;
  tracks : list Track
}.

(** [geo::Coordinate<f64>]: a sample of the elevation shape. *)
Record Coordinate := mkCoord { cx : Z; cy : Z }.

Record GpxInfo := mkInfo {
  name : option string;
  description : option string;
  datetime : option Z;
  location : option string;
  distance : Z;
  uphill : Z;
  downhill : Z
}.

Definition GpxInfo_new : GpxInfo :=
  mkInfo None None None None 0 0 0.

Definition set_name (i : GpxInfo) v :=
  mkInfo v i.(description) i.(datetime) i.(location) i.(distance) i.(uphill) i.(downhill).
Definition set_description (i : GpxInfo) v :=
  mkInfo i.(name) v i.(datetime) i.(location) i.(distance) i.(uphill) i.(downhill).
Definition set_datetime (i : GpxInfo) v :=
  mkInfo i.(name) i.(description) v i.(location) i.(distance) i.(uphill) i.(downhill).
Definition set_location (i : GpxInfo) v :=
  mkInfo i.(name) i.(description) i.(datetime) v i.(distance) i.(uphill) i.(downhill).
Definition set_totals (i : GpxInfo) d u w :=
  mkInfo i.(name) i.(description) i.(datetime) i.(location) d u w.

(** ** serde_json values and the photon reverse-geocoding response *)

Inductive JValue :=
| JNull
| JBool (b : bool)
| JNumber (n : Z)
| JString (s : string).

(** A feature's [properties]: a JSON object, keys unique. *)
Definition Props := list (string * JValue).

Record Feature := mkFeature { properties : option Props }.

(** [serde_json::Map::get] *)
Fixpoint props_get (k : string) (p : Props) : option JValue :=
  match p with
  | [] => None
  | (k', v) :: p' => if String.eqb k k' then Some v else props_get k p'
  end.

Definition quote : ascii := "034"%char.
Definition backslash : ascii := "092"%char.

Definition hex_digit (n : nat) : ascii :=
  ascii_of_nat (if Nat.ltb n 10 then 48 + n else 87 + n).

(** serde_json's string escaping used by [Display for Value]. *)
Definition escape_char (c : ascii) : string :=
  let n := nat_of_ascii c in
  if Ascii.eqb c quote then String backslash (String quote EmptyString)
  else if Ascii.eqb c backslash then String backslash (String backslash EmptyString)
  else if Nat.eqb n 8 then "\b"
  else if Nat.eqb n 12 then "\f"
  else if Nat.eqb n 10 then "\n"
  else if Nat.eqb n 13 then "\r"
  else if Nat.eqb n 9 then "\t"
  else if Nat.ltb n 32 then
    ("\u00" ++ String (hex_digit (n / 16)) (String (hex_digit (n mod 16)) EmptyString))%string
  else String c EmptyString.

Fixpoint escape (s : string) : string :=
  match s with
  | EmptyString => EmptyString
  | String c s' => (escape_char c ++ escape s')%string
  end.

Fixpoint digits_of_pos (fuel : nat) (n : Z) (acc : string) : string :=
  match fuel with
  | O => acc
  | S f =>
      let acc' := String (ascii_of_nat (48 + Z.to_nat (n mod 10))) acc in
      if n <? 10 then acc' else digits_of_pos f (n / 10) acc'
  end.

(** Decimal text of an integer, as [Display for Number]. *)
Definition string_of_Z (n : Z) : string :=
  if n <? 0 then String "-" (digits_of_pos (Z.to_nat (Z.log2 (- n)) + 1) (- n) EmptyString)
  else digits_of_pos (Z.to_nat (Z.log2 n) + 1) n EmptyString.

(** [format!("{}", value)] for a [serde_json::Value]. *)
Definition json_display (v : JValue) : string :=
  match v with
  | JNull => "null"
  | JBool true => "true"
  | JBool false => "false"
  | JNumber n => string_of_Z n
  | JString s => String quote (escape s ++ String quote EmptyString)
  end.

Definition is_whitespace (c : ascii) : bool :=
  let n := nat_of_ascii c in (Nat.leb 9 n && Nat.leb n 13) || Nat.eqb n 32.

Fixpoint trim_start (s : string) : string :=
  match s with
  | EmptyString => EmptyString
  | String c s' => if is_whitespace c then trim_start s' else s
  end.

Definition string_rev (s : string) : string :=
  string_of_list_ascii (rev (list_ascii_of_string s)).

(** [str::trim] *)
Definition trim (s : string) : string :=
  string_rev (trim_start (string_rev (trim_start s))).

(** [.replace] of every double-quote character by the empty string *)
Fixpoint remove_quotes (s : string) : string :=
  match s with
  | EmptyString => EmptyString
  | String c s' => if Ascii.eqb c quote then remove_quotes s' else String c (remove_quotes s')
  end.

(** The JSON empty string, the value used for a missing property. *)
Definition default : JValue := JString EmptyString.

Definition get_or_default (k : string) (props : Props) : JValue :=
  match props_get k props with Some v => v | None => default end.

(** Lines 82-93 (root) / 101-112 (crate). *)
Definition format_location (props : Props) : string :=
  let name := get_or_default "name" props in
  let street := get_or_default "street" props in
  let city := get_or_default "city" props in
  let country := get_or_default "country" props in
  remove_quotes (trim (json_display name ++ ", " ++ json_display street ++ ", "
                       ++ json_display city ++ ", " ++ json_display country)).

(** The body of [if info.location.is_none()] after the request: [None]
    from the service stands for a failed request, a body that is not JSON,
    or a GeoJSON value that is not a FeatureCollection. *)
Definition photon_lookup (photon : Point -> option (list Feature)) (info : GpxInfo)
    (p : Point) : GpxInfo :=
  match photon p with
  | None => info
  | Some features =>
      fold_left (fun i f => match properties f with
                            | Some props => set_location i (Some (format_location props))
                            | None => i
                            end) features info
  end.

(** ** Environment, configuration and outcome *)

Inductive ReadResult :=
| CannotOpen            (* fs::File::open fails *)
| Unparsable            (* gpx::read fails *)
| Parsed (g : Gpx).

Record Env := mkEnv {
  fs_read : string -> ReadResult;
  geodesic_distance : Point -> Point -> Z;
  photon : Point -> option (list Feature);
  geo_simplify : Z -> list Coordinate -> list Coordinate;     (* LineString::simplify *)
  geo_simplifyvw : Z -> list Coordinate -> list Coordinate;   (* LineString::simplifyvw *)
  graphics_ok : bool     (* Device::new, bitmap_target and ctx.finish succeed *)
}.

(** The two variants of [open]: src/src/lib.rs and
    src/crates/spurilo/src/lib.rs differ in the elevation threshold, the
    simplifier and the drawing context. *)
Record Config := mkConfig {
  elevation_threshold : Z;
  simplifier : Env -> list Coordinate -> list Coordinate;
  draws : bool
}.

Definition root_config : Config :=
  mkConfig 3 (fun env => geo_simplify env 1) false.

Definition crate_config : Config :=
  mkConfig 30 (fun env => geo_simplifyvw env 300) true.

(** [Result<GpxInfo, Box<dyn Error>>], with a panic as a third outcome. *)
Inductive Outcome :=
| Panic
| Ok (info : GpxInfo)
| Err (e : string).

Record RunState := mkRunState {
  st_info : GpxInfo;
  st_shape : list Coordinate;        (* elevation_shape *)
  st_requests : list Point           (* positions sent to the geocoder *)
}.

Section Pipeline.
Variable env : Env.
Variable cfg : Config.

(** The threshold test of lines 122-123 (root) / 141-142 (crate). *)
Definition keeps (geodesic : Z) (elevation_diff : option Z) : bool :=
  (3 <? geodesic) ||
  match elevation_diff with
  | Some df => elevation_threshold cfg <? df
  | None => false
  end.

(** One iteration of [for current_waypoint in waypoints_iter]; returns the
    new [previous_waypoint], [info] and [elevation_shape]. *)
Definition waypoint_step (prev cur : Waypoint) (info : GpxInfo) (shape : list Coordinate)
    : Waypoint * GpxInfo * list Coordinate :=
  let gd := geodesic_distance env (wp_point prev) (wp_point cur) in
  let elevation_diff :=
    match elevation prev, elevation cur with
    | Some pe, Some ce => Some (ce - pe)
    | _, _ => None
    end in
  let shape' :=
    match elevation cur with
    | Some e => shape ++ [mkCoord (distance info) e]
    | None => shape
    end in
  if keeps gd elevation_diff then
    let d' := distance info + gd in
    let '(u', w') :=
      match elevation prev, elevation cur with
      | Some pe, Some ce =>
          let diff := ce - pe in
          if 0 <=? diff then (uphill info + diff, downhill info)
          else (uphill info, downhill info - diff)
      | _, _ => (uphill info, downhill info)
      end in
    (cur, set_totals info d' u' w', shape')
  else (prev, info, shape').

Fixpoint waypoints_loop (prev : Waypoint) (ws : list Waypoint) (info : GpxInfo)
    (shape : list Coordinate) : Waypoint * GpxInfo * list Coordinate :=
  match ws with
  | [] => (prev, info, shape)
  | cur :: ws' =>
      let '(p', i', s') := waypoint_step prev cur info shape in
      waypoints_loop p' ws' i' s'
  end.

(** The body of [for segment in track.segments.iter()]; [None] is the panic
    of [waypoints_iter.next().unwrap()] on an empty segment. *)
Definition process_segment (st : RunState) (seg : Segment) : option RunState :=
  match points seg with
  | [] => None
  | prev :: rest =>
      let info1 :=
        match datetime (st_info st) with
        | None => set_datetime (st_info st) (time prev)
        | Some _ => st_info st
        end in
      let '(info2, reqs) :=
        match location info1 with
        | None => (photon_lookup (photon env) info1 (wp_point prev),
                   st_requests st ++ [wp_point prev])
        | Some _ => (info1, st_requests st)
        end in
      let '(_, info3, shape3) := waypoints_loop prev rest info2 (st_shape st) in
      Some (mkRunState info3 shape3 reqs)
  end.

Fixpoint process_segments (st : RunState) (segs : list Segment) : option RunState :=
  match segs with
  | [] => Some st
  | seg :: segs' =>
      match process_segment st seg with
      | None => None
      | Some st' => process_segments st' segs'
      end
  end.

Fixpoint process_tracks (st : RunState) (trks : list Track) : option RunState :=
  match trks with
  | [] => Some st
  | t :: ts =>
      match process_segments st (segments t) with
      | None => None
      | Some st' => process_tracks st' ts
      end
  end.

(** Lines 38-58 (root): metadata first, then the first track;
    [None] is the panic of [gpx.tracks[0]]. *)
Definition init_info (gpx : Gpx) : option GpxInfo :=
  let info :=
    match metadata gpx with
    | Some m => set_description (set_name GpxInfo_new (meta_name m)) (meta_description m)
    | None => GpxInfo_new
    end in
  match tracks gpx with
  | [] => None
  | track :: _ =>
      let info := match name info with
                  | None => set_name info (track_name track)
                  | Some _ => info
                  end in
      let info := match description info with
                  | None => set_description info (track_description track)
                  | Some _ => info
                  end in
      Some info
  end.

Definition run_tracks (gpx : Gpx) : option RunState :=
  match init_info gpx with
  | None => None
  | Some info => process_tracks (mkRunState info [] []) (tracks gpx)
  end.

End Pipeline.

(** Lines 151-165 (root) / 182-205 (crate): uphill and downhill over
    consecutive simplified samples. *)
Fixpoint simpl_loop (previous : Coordinate) (rest : list Coordinate) (up down : Z) : Z * Z :=
  match rest with
  | [] => (up, down)
  | current :: rest' =>
      let diff := cy current - cy previous in
      if 0 <=? diff then simpl_loop current rest' (up + diff) down
      else simpl_loop current rest' up (down - diff)
  end.

(** [None] is the panic of [simplifier_iter.next().unwrap()]. *)
Definition simplified_totals (simplified : list Coordinate) : option (Z * Z) :=
  match simplified with
  | [] => None
  | previous :: rest => Some (simpl_loop previous rest 0 0)
  end.

(** [pub async fn open]; the printed values and the strokes on the
    drawing context have no effect on the result. *)
Definition open (env : Env) (cfg : Config) (path : string) : Outcome :=
  if draws cfg && negb (graphics_ok env) then Panic else
  match fs_read env path with
  | CannotOpen => Panic
  | Unparsable => Panic
  | Parsed gpx =>
      match run_tracks env cfg gpx with
      | None => Panic
      | Some st =>
          match simplified_totals (simplifier cfg env (st_shape st)) with
          | None => Panic
          | Some _ => Ok (st_info st)
          end
      end
  end.

(** ** The Profile Simplifier *)

(** Modelled from the spec: the Profile Simplifier of section 4.4 (the
    [simplifyvw] and [simplify] calls go to the [geo] crate, whose code is not
    part of this repository).  Area-based elimination with a fixed epsilon:
    repeatedly remove the interior point whose triangle with its two
    neighbours has the smallest area, while that area is at most epsilon.
    [triangle_area2] is twice the triangle's area. *)
Definition triangle_area2 (a b c : Coordinate) : Z :=
  Z.abs ((cx b - cx a) * (cy c - cy a) - (cx c - cx a) * (cy b - cy a)).

(** Areas of the interior points, the k-th for the point at index k+1. *)
Fixpoint interior_areas (ps : list Coordinate) : list Z :=
  match ps with
  | a :: ((b :: c :: _) as rest) => triangle_area2 a b c :: interior_areas rest
  | _ => []
  end.

Fixpoint argmin_from (i : nat) (best : nat * Z) (l : list Z) : nat * Z :=
  match l with
  | [] => best
  | a :: l' =>
      if a <? snd best then argmin_from (S i) (i, a) l' else argmin_from (S i) best l'
  end.

(** Index (in the profile) and doubled area of the smallest interior
    triangle, the first one on ties. *)
Definition min_interior (ps : list Coordinate) : option (nat * Z) :=
  match interior_areas ps with
  | [] => None
  | a :: l => Some (argmin_from 2 (1%nat, a) l)
  end.

Fixpoint remove_at {A} (i : nat) (l : list A) : list A :=
  match l, i with
  | [], _ => []
  | _ :: l', O => l'
  | x :: l', S i' => x :: remove_at i' l'
  end.

Fixpoint vw_fuel (fuel : nat) (epsilon : Z) (ps : list Coordinate) : list Coordinate :=
  match fuel with
  | O => ps
  | S f =>
      match min_interior ps with
      | None => ps
      | Some (i, a) => if a <=? 2 * epsilon then vw_fuel f epsilon (remove_at i ps) else ps
      end
  end.

(** Every step removes one point, so [List.length ps] steps suffice. *)
Definition simplify_vw (epsilon : Z) (ps : list Coordinate) : list Coordinate :=
  vw_fuel (List.length ps) epsilon ps.

(** ** A concrete environment for the examples *)

(** Taxicab distance on integer coordinates stands in for the geodesic, and
    the simplifier modelled above stands in for both [geo] simplifiers. *)
Definition taxicab (p q : Point) : Z := Z.abs (lng p - lng q) + Z.abs (lat p - lat q).

Definition example_env (gpx : Gpx) (service : Point -> option (list Feature)) : Env :=
  mkEnv (fun _ => Parsed gpx) taxicab service simplify_vw simplify_vw true.

Definition no_service (_ : Point) : option (list Feature) := None.

Definition wp (x e : Z) (t : option Z) : Waypoint :=
  mkWaypoint (mkPoint x 0) (Some e) t.

Definition wp_noelev (x : Z) : Waypoint := mkWaypoint (mkPoint x 0) None None.

Definition one_segment (ws : list Waypoint) : Gpx :=
  mkGpx None [mkTrack (Some "t"%string) None [mkSegment ws]].

(** ** Descriptions used in the statements below *)

(** Elevations of the waypoints of a segment after its first one. *)
Definition tail_elevations (seg : Segment) : list Z :=
  match points seg with
  | [] => []
  | _ :: rest => flat_map (fun w => match elevation w with Some e => [e] | None => [] end) rest
  end.

(** All segments of all tracks, in order. *)
Definition all_segments (gpx : Gpx) : list Segment := flat_map segments (tracks gpx).

(** A lookup yields a location: the service answered with a feature
    collection holding a feature with properties. *)
Definition located_by (service : Point -> option (list Feature)) (p : Point) : bool :=
  match service p with
  | Some features =>
      existsb (fun f => match properties f with Some _ => true | None => false end) features
  | None => false
  end.

(** Positions looked up: the first waypoint of each segment, up to and
    including the first lookup that yields a location. *)
Fixpoint lookup_points (service : Point -> option (list Feature)) (segs : list Segment)
    : list Point :=
  match segs with
  | [] => []
  | seg :: segs' =>
      match points seg with
      | [] => []
      | w :: _ =>
          wp_point w :: (if located_by service (wp_point w) then []
                         else lookup_points service segs')
      end
  end.

(** The first non-null timestamp among the first waypoints of the segments. *)
Fixpoint first_segment_time (segs : list Segment) : option Z :=
  match segs with
  | [] => None
  | seg :: segs' =>
      match points seg with
      | [] => None
      | w :: _ => match time w with Some t => Some t | None => first_segment_time segs' end
      end
  end.

(** Text that serde_json prints unescaped: no double quote, no backslash,
    no control character. *)
Fixpoint plain_text (s : string) : bool :=
  match s with
  | EmptyString => true
  | String c s' =>
      negb (Ascii.eqb c quote) && negb (Ascii.eqb c backslash)
      && Nat.leb 32 (nat_of_ascii c) && plain_text s'
  end.

(** Two segments of two waypoints each. *)
Definition two_segments : Gpx :=
  mkGpx None [mkTrack None None [mkSegment [wp 0 10 None; wp 100 20 None];
                                  mkSegment [wp 200 30 None; wp 300 40 None]]].

(** A geocoding record without a name. *)
Definition bern_props : Props :=
  [("street"%string, JString "Main"); ("city"%string, JString "Bern");
   ("country"%string, JString "Switzerland")].

Definition bern_service (_ : Point) : option (list Feature) :=
  Some [mkFeature (Some bern_props)].

(** The same environment with another geocoding service. *)
Definition with_service (env : Env) (service : Point -> option (list Feature)) : Env :=
  mkEnv (fs_read env) (geodesic_distance env) service (geo_simplify env) (geo_simplifyvw env)
        (graphics_ok env).

(** Distance, uphill and downhill that one segment adds when it is run on
    its own. *)
Definition segment_totals (env : Env) (cfg : Config) (seg : Segment) : Z * Z * Z :=
  match points seg with
  | [] => (0, 0, 0)
  | prev :: rest =>
      let i := snd (fst (waypoints_loop env cfg prev rest GpxInfo_new [])) in
      (distance i, uphill i, downhill i)
  end.

Definition sum_Z (l : list Z) : Z := fold_right Z.add 0 l.

(** A service that fails for the first segment's position and answers
    elsewhere. *)
Definition partial_service (p : Point) : option (list Feature) :=
  if lng p =? 0 then None else Some [mkFeature (Some bern_props)].

(** The properties of the last feature that has some, in a response. *)
Fixpoint last_props (fs : list Feature) : option Props :=
  match fs with
  | [] => None
  | f :: fs' => match last_props fs' with Some p => Some p | None => properties f end
  end.

(** The location text a lookup at [p] yields, if any. *)
Definition lookup_result (service : Point -> option (list Feature)) (p : Point)
    : option string :=
  match service p with
  | Some fs => option_map format_location (last_props fs)
  | None => None
  end.

(** The location given by the first segment whose first waypoint's lookup
    yields one. *)
Fixpoint first_location (service : Point -> option (list Feature)) (segs : list Segment)
    : option string :=
  match segs with
  | [] => None
  | seg :: segs' =>
      match points seg with
      | [] => None
      | w :: _ =>
          match lookup_result service (wp_point w) with
          | Some l => Some l
          | None => first_location service segs'
          end
      end
  end.

(** A service that fails at longitude 0 and elsewhere answers with two
    records, the second one naming only a city. *)
Definition two_places (p : Point) : option (list Feature) :=
  if lng p =? 0 then None
  else Some [mkFeature (Some bern_props); mkFeature None;
             mkFeature (Some [("city"%string, JString "Zurich"%string)])].

(** ** Checks on small inputs *)

Example scenario_B :
  simplify_vw 51 [mkCoord 0 0; mkCoord 10 5; mkCoord 20 0] = [mkCoord 0 0; mkCoord 20 0].
Proof. reflexivity. Qed.

Example scenario_C :
  simplify_vw 10 [mkCoord 0 0; mkCoord 10 50; mkCoord 20 0]
  = [mkCoord 0 0; mkCoord 10 50; mkCoord 20 0].
Proof. reflexivity. Qed.

Example scenario_A_crate :
  let g := one_segment [wp 0 100 None; wp 1 100 None; wp 100 150 None] in
  match open (example_env g no_service) crate_config "f" with
  | Ok info => distance info = 100 /\ uphill info = 50 /\ downhill info = 0
  | _ => False
  end.
Proof. vm_compute. repeat split; reflexivity. Qed.

(** ** Simplifier: size and end points *)

Lemma interior_areas_length (ps : list Coordinate) :
  List.length (interior_areas ps) = (List.length ps - 2)%nat.
Proof.
  induction ps as [|a ps IH]; [reflexivity|].
  destruct ps as [|b [|c ps']]; [reflexivity|reflexivity|].
  change (interior_areas (a :: b :: c :: ps'))
    with (triangle_area2 a b c :: interior_areas (b :: c :: ps')).
  simpl List.length in *. rewrite IH. lia.
Qed.

Lemma argmin_from_range (l : list Z) : forall i best,
  (1 <= fst best < i)%nat ->
  (1 <= fst (argmin_from i best l) < i + List.length l)%nat.
Proof.
  induction l as [|a l IH]; intros i best Hb; simpl.
  - lia.
  - destruct (a <? snd best).
    + specialize (IH (S i) (i, a)). simpl in IH. lia.
    + specialize (IH (S i) best). lia.
Qed.

Lemma min_interior_range (ps : list Coordinate) i a :
  min_interior ps = Some (i, a) ->
  (1 <= i)%nat /\ (S i < List.length ps)%nat.
Proof.
  unfold min_interior. intros H.
  pose proof (interior_areas_length ps) as Hlen.
  destruct (interior_areas ps) as [|a0 l] eqn:E; [discriminate|].
  injection H as H.
  pose proof (argmin_from_range l 2 (1%nat, a0)) as R. simpl in R.
  rewrite H in R. simpl in Hlen, R. lia.
Qed.

Lemma remove_at_length {A} (l : list A) i :
  (List.length (remove_at i l) <= List.length l)%nat /\
  ((i < List.length l)%nat -> S (List.length (remove_at i l)) = List.length l).
Proof.
  revert i. induction l as [|x l IH]; intros [|i]; simpl; try lia.
  destruct (IH i). lia.
Qed.

Lemma remove_at_hd {A} (l : list A) i :
  (1 <= i)%nat -> hd_error (remove_at i l) = hd_error l.
Proof. destruct l, i; simpl; auto; lia. Qed.

Lemma last_cons_nonempty {A} (x : A) (l : list A) d :
  l <> [] -> last (x :: l) d = last l d.
Proof. destruct l; [congruence|reflexivity]. Qed.

Lemma remove_at_last {A} (l : list A) : forall i d,
  (S i < List.length l)%nat -> last (remove_at i l) d = last l d.
Proof.
  induction l as [|x l IH]; intros [|i] d H; simpl in H; try lia.
  - change (remove_at 0 (x :: l)) with l.
    rewrite last_cons_nonempty; [reflexivity|].
    destruct l; simpl in H; [lia|discriminate].
  - change (remove_at (S i) (x :: l)) with (x :: remove_at i l).
    rewrite !last_cons_nonempty.
    + apply IH. lia.
    + destruct l; simpl in H; [lia|discriminate].
    + intro E. pose proof (remove_at_length l i) as [_ R].
      rewrite E in R. simpl in R. lia.
Qed.

Lemma vw_fuel_shape (e : Z) (d : Coordinate) : forall f ps,
  (List.length (vw_fuel f e ps) <= List.length ps)%nat /\
  (ps <> [] -> hd_error (vw_fuel f e ps) = hd_error ps /\
               last (vw_fuel f e ps) d = last ps d).
Proof.
  induction f as [|f IH]; intros ps; cbn [vw_fuel]; [split; auto|].
  destruct (min_interior ps) as [[i a]|] eqn:Hm; [|split; auto].
  destruct (a <=? 2 * e); [|split; auto].
  apply min_interior_range in Hm as [H1 H2].
  pose proof (remove_at_length ps i) as [_ Hl].
  specialize (Hl ltac:(lia)).
  destruct (IH (remove_at i ps)) as [IHl IHe].
  split; [lia|]. intros Hne.
  assert (remove_at i ps <> []) as Hr.
  { intro E. rewrite E in Hl. simpl in Hl. lia. }
  destruct (IHe Hr) as [IHh IHt].
  rewrite IHh, IHt, remove_at_hd, remove_at_last by lia. auto.
Qed.

Lemma vw_fuel_monotone (e1 e2 : Z) : e1 <= e2 -> forall f ps,
  (List.length (vw_fuel f e2 ps) <= List.length (vw_fuel f e1 ps))%nat.
Proof.
  intros He f. induction f as [|f IH]; intros ps; cbn [vw_fuel]; [lia|].
  destruct (min_interior ps) as [[i a]|] eqn:Hm; [|lia].
  destruct (a <=? 2 * e1) eqn:H1.
  - assert ((a <=? 2 * e2) = true) as H2 by (apply Z.leb_le; apply Z.leb_le in H1; lia).
    rewrite H2. apply IH.
  - destruct (a <=? 2 * e2); [|lia].
    pose proof (vw_fuel_shape e2 (mkCoord 0 0) f (remove_at i ps)) as [Hl _].
    pose proof (remove_at_length ps i) as [Hr _]. lia.
Qed.

(** C7: for every non-empty elevation profile, the simplified profile has no
    more points than the input, and its first and last samples are the
    input's first and last samples. *)
Theorem simplify_vw_keeps_ends (epsilon : Z) (ps : list Coordinate) (d : Coordinate) :
  ps <> [] ->
  (List.length (simplify_vw epsilon ps) <= List.length ps)%nat /\
  hd_error (simplify_vw epsilon ps) = hd_error ps /\
  last (simplify_vw epsilon ps) d = last ps d.
Proof.
  intros Hne. unfold simplify_vw.
  destruct (vw_fuel_shape epsilon d (List.length ps) ps) as [Hl He].
  destruct (He Hne) as [Hh Ht]. auto.
Qed.

Lemma simplify_vw_keeps_ends_witness :
  [mkCoord 0 0; mkCoord 10 5; mkCoord 20 0] <> [] /\
  (List.length (simplify_vw 51 [mkCoord 0 0; mkCoord 10 5; mkCoord 20 0]) <= 3)%nat /\
  hd_error (simplify_vw 51 [mkCoord 0 0; mkCoord 10 5; mkCoord 20 0]) = Some (mkCoord 0 0) /\
  last (simplify_vw 51 [mkCoord 0 0; mkCoord 10 5; mkCoord 20 0]) (mkCoord 0 0) = mkCoord 20 0.
Proof.
  assert (H : [mkCoord 0 0; mkCoord 10 5; mkCoord 20 0] <> []) by discriminate.
  split; [exact H|].
  exact (simplify_vw_keeps_ends 51 _ (mkCoord 0 0) H).
Defined.

(** C8: for every profile and epsilons e1 <= e2, simplifying with e2 retains
    no more points than simplifying with e1. *)
Theorem simplify_vw_epsilon_monotone (e1 e2 : Z) (ps : list Coordinate) :
  e1 <= e2 ->
  (List.length (simplify_vw e2 ps) <= List.length (simplify_vw e1 ps))%nat.
Proof. intros He. unfold simplify_vw. apply vw_fuel_monotone. exact He. Qed.

Lemma simplify_vw_epsilon_monotone_witness :
  10 <= 51 /\
  (List.length (simplify_vw 51 [mkCoord 0 0; mkCoord 10 5; mkCoord 20 0])
   <= List.length (simplify_vw 10 [mkCoord 0 0; mkCoord 10 5; mkCoord 20 0]))%nat.
Proof.
  split; [lia|]. apply simplify_vw_epsilon_monotone. lia.
Defined.

(** ** Panics of [open] *)

Lemma process_segments_empty_segment env cfg segs : forall st seg,
  In seg segs -> points seg = [] -> process_segments env cfg st segs = None.
Proof.
  induction segs as [|s0 segs IH]; intros st seg Hin Hp; [destruct Hin|].
  simpl. destruct Hin as [<-|Hin].
  - unfold process_segment. rewrite Hp. reflexivity.
  - destruct (process_segment env cfg st s0); [|reflexivity]. eapply IH; eauto.
Qed.

Lemma process_tracks_empty_segment env cfg trks : forall st t seg,
  In t trks -> In seg (segments t) -> points seg = [] ->
  process_tracks env cfg st trks = None.
Proof.
  induction trks as [|t0 trks IH]; intros st t seg Ht Hs Hp; [destruct Ht|].
  simpl. destruct Ht as [<-|Ht].
  - erewrite process_segments_empty_segment; eauto.
  - destruct (process_segments env cfg st (segments t0)); [|reflexivity]. eapply IH; eauto.
Qed.

Lemma run_tracks_empty_segment env cfg gpx t seg :
  In t (tracks gpx) -> In seg (segments t) -> points seg = [] ->
  run_tracks env cfg gpx = None.
Proof.
  intros Ht Hs Hp. unfold run_tracks.
  destruct (init_info gpx); [|reflexivity]. eapply process_tracks_empty_segment; eauto.
Qed.

(** C10: [open] never returns [Err]; an unopenable file, an unparsable
    file, a file without tracks, a segment without waypoints and an empty
    simplified elevation profile all end in a panic. *)
Theorem open_never_err (env : Env) (cfg : Config) (path : string) :
  (forall e, open env cfg path <> Err e) /\
  (fs_read env path = CannotOpen -> open env cfg path = Panic) /\
  (fs_read env path = Unparsable -> open env cfg path = Panic) /\
  (forall gpx, fs_read env path = Parsed gpx -> tracks gpx = [] ->
     open env cfg path = Panic) /\
  (forall gpx t seg, fs_read env path = Parsed gpx ->
     In t (tracks gpx) -> In seg (segments t) -> points seg = [] ->
     open env cfg path = Panic) /\
  (forall gpx st, fs_read env path = Parsed gpx -> run_tracks env cfg gpx = Some st ->
     simplifier cfg env (st_shape st) = [] -> open env cfg path = Panic).
Proof.
  unfold open.
  destruct (draws cfg && negb (graphics_ok env)).
  { repeat split; intros; discriminate. }
  repeat split.
  - intros e. destruct (fs_read env path) as [| |gpx]; try discriminate.
    destruct (run_tracks env cfg gpx) as [st|]; try discriminate.
    destruct (simplified_totals _); discriminate.
  - intros ->. reflexivity.
  - intros ->. reflexivity.
  - intros gpx -> Ht. unfold run_tracks, init_info. rewrite Ht.
    destruct (metadata gpx); reflexivity.
  - intros gpx t seg -> Ht Hs Hp. erewrite run_tracks_empty_segment; eauto.
  - intros gpx st -> Hr Hs. rewrite Hr, Hs. reflexivity.
Qed.

Lemma open_never_err_witness :
  open (example_env (one_segment [wp 0 10 None; wp 5 20 None]) no_service)
       crate_config "f" <> Err EmptyString /\
  open (example_env (mkGpx None [mkTrack None None [mkSegment []]]) no_service)
       crate_config "f" = Panic.
Proof.
  split.
  - apply (open_never_err (example_env (one_segment [wp 0 10 None; wp 5 20 None]) no_service)
                          crate_config "f").
  - destruct (open_never_err (example_env (mkGpx None [mkTrack None None [mkSegment []]])
                                no_service) crate_config "f") as [_ [_ [_ [_ [H _]]]]].
    apply (H (mkGpx None [mkTrack None None [mkSegment []]]) (mkTrack None None [mkSegment []])
             (mkSegment [])); simpl; auto.
Defined.

(** ** Tracks without elevation *)

Lemma waypoint_step_shape env cfg prev cur info shape :
  elevation cur = None -> snd (waypoint_step env cfg prev cur info shape) = shape.
Proof.
  intros H. unfold waypoint_step. rewrite H.
  destruct (elevation prev); cbn; destruct (keeps _ _ _); reflexivity.
Qed.

Lemma waypoints_loop_shape env cfg ws : forall prev info shape,
  (forall w, In w ws -> elevation w = None) ->
  snd (waypoints_loop env cfg prev ws info shape) = shape.
Proof.
  induction ws as [|cur ws IH]; intros prev info shape H; [reflexivity|].
  simpl. destruct (waypoint_step env cfg prev cur info shape) as [[p' i'] s'] eqn:E.
  pose proof (waypoint_step_shape env cfg prev cur info shape) as Hs.
  rewrite E in Hs. simpl in Hs. rewrite IH.
  - apply Hs. apply H. left. reflexivity.
  - intros w Hw. apply H. right. exact Hw.
Qed.

Lemma process_segment_shape env cfg st seg st' :
  (forall w, In w (points seg) -> elevation w = None) ->
  process_segment env cfg st seg = Some st' -> st_shape st' = st_shape st.
Proof.
  intros H. unfold process_segment.
  destruct (points seg) as [|prev rest] eqn:Ep; [discriminate|].
  destruct (match location _ with None => _ | Some _ => _ end) as [info2 reqs].
  destruct (waypoints_loop env cfg prev rest info2 (st_shape st)) as [[p3 i3] s3] eqn:E.
  intros Hs. injection Hs as <-. simpl.
  pose proof (waypoints_loop_shape env cfg rest prev info2 (st_shape st)) as L.
  rewrite E in L. apply L. intros w Hw. apply H. right. exact Hw.
Qed.

Lemma process_segments_shape env cfg segs : forall st st',
  (forall seg w, In seg segs -> In w (points seg) -> elevation w = None) ->
  process_segments env cfg st segs = Some st' -> st_shape st' = st_shape st.
Proof.
  induction segs as [|seg segs IH]; intros st st' H; simpl.
  - intros E. injection E as <-. reflexivity.
  - destruct (process_segment env cfg st seg) as [s1|] eqn:E1; [|discriminate].
    intros E. rewrite (IH s1 st'); [| intros; eapply H; [right|]; eauto | exact E].
    eapply process_segment_shape; [|exact E1]. intros w Hw. eapply H; [left|]; eauto.
Qed.

Lemma process_tracks_shape env cfg trks : forall st st',
  (forall t seg w, In t trks -> In seg (segments t) -> In w (points seg) ->
     elevation w = None) ->
  process_tracks env cfg st trks = Some st' -> st_shape st' = st_shape st.
Proof.
  induction trks as [|t trks IH]; intros st st' H; simpl.
  - intros E. injection E as <-. reflexivity.
  - destruct (process_segments env cfg st (segments t)) as [s1|] eqn:E1; [|discriminate].
    intros E. rewrite (IH s1 st'); [| intros; eapply H; [right| |]; eauto | exact E].
    eapply process_segments_shape; [|exact E1]. intros. eapply H; [left| |]; eauto.
Qed.

(** C1: when no waypoint carries an elevation, the elevation shape stays
    empty and [simplifier_iter.next().unwrap()] panics: [open] does not
    complete (for every simplifier that maps the empty profile to itself). *)
Theorem open_panics_without_elevation (env : Env) (cfg : Config) (path : string) (gpx : Gpx) :
  fs_read env path = Parsed gpx ->
  (forall t seg w, In t (tracks gpx) -> In seg (segments t) -> In w (points seg) ->
     elevation w = None) ->
  simplifier cfg env [] = [] ->
  open env cfg path = Panic.
Proof.
  intros Hr Hn Hs. unfold open.
  destruct (draws cfg && negb (graphics_ok env)); [reflexivity|].
  rewrite Hr. unfold run_tracks.
  destruct (init_info gpx) as [info|]; [|reflexivity].
  destruct (process_tracks env cfg (mkRunState info [] []) (tracks gpx)) as [st|] eqn:E;
    [|reflexivity].
  apply process_tracks_shape in E; [|exact Hn].
  simpl in E. rewrite E, Hs. reflexivity.
Qed.

Lemma open_panics_without_elevation_witness :
  fs_read (example_env (one_segment [wp_noelev 0; wp_noelev 100]) no_service) "f"
    = Parsed (one_segment [wp_noelev 0; wp_noelev 100]) /\
  (forall t seg w, In t (tracks (one_segment [wp_noelev 0; wp_noelev 100])) ->
     In seg (segments t) -> In w (points seg) -> elevation w = None) /\
  simplifier crate_config (example_env (one_segment [wp_noelev 0; wp_noelev 100]) no_service) []
    = [] /\
  open (example_env (one_segment [wp_noelev 0; wp_noelev 100]) no_service) crate_config "f"
    = Panic.
Proof.
  assert (Hn : forall t seg w, In t (tracks (one_segment [wp_noelev 0; wp_noelev 100])) ->
     In seg (segments t) -> In w (points seg) -> elevation w = None).
  { intros t seg w Ht Hs Hw.
    destruct Ht as [<-|[]]; destruct Hs as [<-|[]]; destruct Hw as [<-|[<-|[]]]; reflexivity. }
  split; [reflexivity|]. split; [exact Hn|]. split; [reflexivity|].
  apply (open_panics_without_elevation
           (example_env (one_segment [wp_noelev 0; wp_noelev 100]) no_service) crate_config "f"
           (one_segment [wp_noelev 0; wp_noelev 100])); [reflexivity|exact Hn|reflexivity].
Defined.

(** Before the panic, the run had accumulated the distance (100) with no
    uphill, no downhill and an empty elevation shape. *)
Example no_elevation_state :
  match run_tracks (example_env (one_segment [wp_noelev 0; wp_noelev 100]) no_service)
          crate_config (one_segment [wp_noelev 0; wp_noelev 100]) with
  | Some st => distance (st_info st) = 100 /\ uphill (st_info st) = 0 /\
               downhill (st_info st) = 0 /\ st_shape st = []
  | None => False
  end.
Proof. vm_compute. repeat split. Qed.

(** ** The waypoint filter *)

(** C2: a candidate at the previous kept waypoint's position, 50 m lower,
    is dropped by both variants of the filter although the absolute
    elevation delta exceeds the elevation threshold (3 m, resp. 30 m): the
    test compares the signed delta.  The descent never reaches [downhill]. *)
Theorem negative_delta_dropped :
  fst (fst (waypoint_step (example_env (one_segment [wp 0 100 None; wp 0 50 None]) no_service)
              root_config (wp 0 100 None) (wp 0 50 None) GpxInfo_new [])) = wp 0 100 None /\
  fst (fst (waypoint_step (example_env (one_segment [wp 0 100 None; wp 0 50 None]) no_service)
              crate_config (wp 0 100 None) (wp 0 50 None) GpxInfo_new [])) = wp 0 100 None /\
  elevation_threshold root_config < Z.abs (50 - 100) /\
  elevation_threshold crate_config < Z.abs (50 - 100) /\
  match open (example_env (one_segment [wp 0 100 None; wp 0 50 None]) no_service)
          root_config "f" with
  | Ok info => downhill info = 0
  | _ => False
  end /\
  match open (example_env (one_segment [wp 0 100 None; wp 0 50 None]) no_service)
          crate_config "f" with
  | Ok info => downhill info = 0
  | _ => False
  end.
Proof. vm_compute. repeat split; reflexivity. Qed.

(** ** The raw elevation profile *)

Ltac split_ifs :=
  repeat match goal with |- context [if ?b then _ else _] => destruct b end.

Lemma waypoint_step_cy env cfg prev cur info shape :
  map cy (snd (waypoint_step env cfg prev cur info shape))
  = map cy shape ++ match elevation cur with Some e => [e] | None => [] end.
Proof.
  unfold waypoint_step.
  destruct (elevation cur); destruct (elevation prev); split_ifs; cbn [snd];
    rewrite ?map_app, ?app_nil_r; reflexivity.
Qed.

Lemma waypoints_loop_cy env cfg ws : forall prev info shape,
  map cy (snd (waypoints_loop env cfg prev ws info shape))
  = map cy shape ++ flat_map (fun w => match elevation w with Some e => [e] | None => [] end) ws.
Proof.
  induction ws as [|cur ws IH]; intros prev info shape; simpl.
  - rewrite app_nil_r. reflexivity.
  - pose proof (waypoint_step_cy env cfg prev cur info shape) as Hs.
    destruct (waypoint_step env cfg prev cur info shape) as [[p' i'] s'].
    rewrite IH. simpl in Hs. rewrite Hs, app_assoc. reflexivity.
Qed.

Lemma process_segment_cy env cfg st seg st' :
  process_segment env cfg st seg = Some st' ->
  map cy (st_shape st') = map cy (st_shape st) ++ tail_elevations seg.
Proof.
  unfold process_segment, tail_elevations.
  destruct (points seg) as [|prev rest]; [discriminate|].
  destruct (match location _ with None => _ | Some _ => _ end) as [info2 reqs].
  pose proof (waypoints_loop_cy env cfg rest prev info2 (st_shape st)) as L.
  destruct (waypoints_loop env cfg prev rest info2 (st_shape st)) as [[p3 i3] s3].
  intros Hs. injection Hs as <-. exact L.
Qed.

Lemma process_segments_cy env cfg segs : forall st st',
  process_segments env cfg st segs = Some st' ->
  map cy (st_shape st') = map cy (st_shape st) ++ flat_map tail_elevations segs.
Proof.
  induction segs as [|seg segs IH]; intros st st'; simpl.
  - intros E. injection E as <-. rewrite app_nil_r. reflexivity.
  - destruct (process_segment env cfg st seg) as [s1|] eqn:E1; [|discriminate].
    intros E. rewrite (IH _ _ E), (process_segment_cy _ _ _ _ _ E1), app_assoc.
    reflexivity.
Qed.

Lemma process_tracks_cy env cfg trks : forall st st',
  process_tracks env cfg st trks = Some st' ->
  map cy (st_shape st') = map cy (st_shape st) ++ flat_map tail_elevations (flat_map segments trks).
Proof.
  induction trks as [|t trks IH]; intros st st'; simpl.
  - intros E. injection E as <-. rewrite app_nil_r. reflexivity.
  - destruct (process_segments env cfg st (segments t)) as [s1|] eqn:E1; [|discriminate].
    intros E. rewrite (IH _ _ E), (process_segments_cy _ _ _ _ _ E1), flat_map_app, app_assoc.
    reflexivity.
Qed.

(** ** Fields untouched by the waypoint loop and by the geocoder *)

Lemma waypoint_step_fields env cfg prev cur info shape :
  datetime (snd (fst (waypoint_step env cfg prev cur info shape))) = datetime info /\
  location (snd (fst (waypoint_step env cfg prev cur info shape))) = location info.
Proof.
  unfold waypoint_step.
  destruct (elevation cur); destruct (elevation prev); split_ifs; cbn; auto.
Qed.

Lemma waypoints_loop_fields env cfg ws : forall prev info shape,
  datetime (snd (fst (waypoints_loop env cfg prev ws info shape))) = datetime info /\
  location (snd (fst (waypoints_loop env cfg prev ws info shape))) = location info.
Proof.
  induction ws as [|cur ws IH]; intros prev info shape; simpl; [auto|].
  pose proof (waypoint_step_fields env cfg prev cur info shape) as [H1 H2].
  destruct (waypoint_step env cfg prev cur info shape) as [[p' i'] s'].
  simpl in H1, H2. rewrite <- H1, <- H2. apply IH.
Qed.

Definition has_properties (f : Feature) : bool :=
  match properties f with Some _ => true | None => false end.

Lemma lookup_fold_fields (fs : list Feature) : forall info,
  let r := fold_left (fun i f => match properties f with
                                 | Some props => set_location i (Some (format_location props))
                                 | None => i
                                 end) fs info in
  datetime r = datetime info /\
  (location r = None <-> location info = None /\ existsb has_properties fs = false).
Proof.
  induction fs as [|f fs IH]; intros info; simpl.
  - intuition.
  - unfold has_properties at 1. destruct (properties f) as [props|]; simpl.
    + destruct (IH (set_location info (Some (format_location props)))) as [H1 H2].
      simpl in H1, H2. split; [exact H1|]. rewrite H2. intuition discriminate.
    + exact (IH info).
Qed.

Lemma photon_lookup_fields service info p :
  datetime (photon_lookup service info p) = datetime info /\
  (location info = None ->
   (location (photon_lookup service info p) = None <-> located_by service p = false)).
Proof.
  unfold photon_lookup, located_by. destruct (service p) as [fs|]; [|split; auto; intuition].
  destruct (lookup_fold_fields fs info) as [H1 H2]. split; [exact H1|].
  intros Hn. rewrite H2. fold has_properties. intuition.
Qed.

Lemma process_segments_app env cfg l1 : forall l2 st,
  process_segments env cfg st (l1 ++ l2)
  = match process_segments env cfg st l1 with
    | None => None
    | Some s => process_segments env cfg s l2
    end.
Proof.
  induction l1 as [|seg l1 IH]; intros l2 st; simpl; [reflexivity|].
  destruct (process_segment env cfg st seg); [apply IH|reflexivity].
Qed.

Lemma process_tracks_segments env cfg trks : forall st,
  process_tracks env cfg st trks = process_segments env cfg st (flat_map segments trks).
Proof.
  induction trks as [|t trks IH]; intros st; simpl; [reflexivity|].
  rewrite process_segments_app. destruct (process_segments env cfg st (segments t)); auto.
Qed.

Lemma init_info_unset gpx info :
  init_info gpx = Some info -> datetime info = None /\ location info = None.
Proof.
  unfold init_info. destruct (tracks gpx); [discriminate|].
  intros E. injection E as <-.
  destruct (metadata gpx); cbn;
    repeat match goal with |- context [match ?x with Some _ => _ | None => _ end] =>
                             destruct x end; cbn; auto.
Qed.

Lemma run_tracks_segments env cfg gpx st :
  run_tracks env cfg gpx = Some st ->
  exists info, init_info gpx = Some info /\
    process_segments env cfg (mkRunState info [] []) (all_segments gpx) = Some st.
Proof.
  unfold run_tracks, all_segments. destruct (init_info gpx) as [info|]; [|discriminate].
  rewrite process_tracks_segments. eauto.
Qed.

Lemma process_segment_run env cfg st seg st' :
  process_segment env cfg st seg = Some st' ->
  exists w rest, points seg = w :: rest /\
    datetime (st_info st') =
      match datetime (st_info st) with Some t => Some t | None => time w end /\
    match location (st_info st) with
    | Some _ => st_requests st' = st_requests st /\ location (st_info st') <> None
    | None => st_requests st' = st_requests st ++ [wp_point w] /\
              (location (st_info st') = None <-> located_by (photon env) (wp_point w) = false)
    end.
Proof.
  unfold process_segment. destruct (points seg) as [|w rest]; [discriminate|].
  intros E. exists w, rest. split; [reflexivity|].
  destruct st as [info shape reqs]. cbn [st_info st_shape st_requests] in *.
  destruct (datetime info) as [t|] eqn:HD; destruct (location info) as [l|] eqn:HL;
    cbn [location set_datetime datetime] in E |- *; rewrite ?HL in E.
  all: match type of E with
       | context [waypoints_loop ?e ?c ?p ?r ?i ?s] =>
           pose proof (waypoints_loop_fields e c r p i s) as [F1 F2];
           destruct (waypoints_loop e c p r i s) as [[p3 i3] s3]
       end.
  all: injection E as <-; cbn [st_info st_requests fst snd] in *.
  all: rewrite F1, F2.
  - rewrite HD, HL. split; [reflexivity|]. split; [reflexivity|discriminate].
  - destruct (photon_lookup_fields (photon env) info (wp_point w)) as [P1 P2].
    rewrite P1, HD. split; [reflexivity|]. split; [reflexivity|]. apply P2. exact HL.
  - cbn. rewrite HL. split; [reflexivity|]. split; [reflexivity|discriminate].
  - destruct (photon_lookup_fields (photon env)
                (set_datetime info (time w)) (wp_point w)) as [P1 P2].
    rewrite P1. split; [reflexivity|]. split; [reflexivity|]. apply P2. exact HL.
Qed.

Lemma process_segments_requests env cfg segs : forall st st',
  process_segments env cfg st segs = Some st' ->
  st_requests st' = st_requests st ++
    match location (st_info st) with
    | None => lookup_points (photon env) segs
    | Some _ => []
    end.
Proof.
  induction segs as [|seg segs IH]; intros st st'; simpl.
  - intros E. injection E as <-. destruct (location _); rewrite app_nil_r; reflexivity.
  - destruct (process_segment env cfg st seg) as [s1|] eqn:E1; [|discriminate].
    intros E. rewrite (IH _ _ E).
    destruct (process_segment_run _ _ _ _ _ E1) as (w & rest & Hp & _ & HL).
    rewrite Hp. destruct (location (st_info st)) as [l|].
    + destruct HL as [-> HL]. destruct (location (st_info s1)); [reflexivity|congruence].
    + destruct HL as [-> HL]. rewrite <- app_assoc.
      destruct (located_by (photon env) (wp_point w)) eqn:Hl;
        destruct (location (st_info s1)) eqn:Hs1.
      * reflexivity.
      * destruct HL as [H _]. specialize (H eq_refl). discriminate.
      * destruct HL as [_ H]. specialize (H eq_refl). discriminate.
      * reflexivity.
Qed.

Lemma process_segments_datetime env cfg segs : forall st st',
  process_segments env cfg st segs = Some st' ->
  datetime (st_info st') =
    match datetime (st_info st) with
    | Some t => Some t
    | None => first_segment_time segs
    end.
Proof.
  induction segs as [|seg segs IH]; intros st st'; simpl.
  - intros E. injection E as <-. destruct (datetime _); reflexivity.
  - destruct (process_segment env cfg st seg) as [s1|] eqn:E1; [|discriminate].
    intros E. rewrite (IH _ _ E).
    destruct (process_segment_run _ _ _ _ _ E1) as (w & rest & Hp & HD & _).
    rewrite Hp, HD. destruct (datetime (st_info st)); [reflexivity|].
    destruct (time w); reflexivity.
Qed.

Lemma open_ok_run env cfg path gpx info :
  fs_read env path = Parsed gpx -> open env cfg path = Ok info ->
  exists st, run_tracks env cfg gpx = Some st /\ st_info st = info.
Proof.
  intros Hr. unfold open. destruct (draws cfg && negb (graphics_ok env)); [discriminate|].
  rewrite Hr. destruct (run_tracks env cfg gpx) as [st|]; [|discriminate].
  destruct (simplified_totals _); [|discriminate].
  intros E. injection E as <-. eauto.
Qed.

(** ** Reverse geocoding *)

(** C4 (amended): the positions sent to the geocoder are the first
    waypoints of the segments, in track and segment order, up to and
    including the first lookup that yields a location: a failed lookup is
    retried at the next segment, and none follows a successful one. *)
Theorem geocoding_attempts (env : Env) (cfg : Config) (gpx : Gpx) (st : RunState) :
  run_tracks env cfg gpx = Some st ->
  st_requests st = lookup_points (photon env) (all_segments gpx).
Proof.
  intros E. destruct (run_tracks_segments _ _ _ _ E) as (info & Hi & Hs).
  rewrite (process_segments_requests _ _ _ _ _ Hs). cbn [st_info st_requests].
  destruct (init_info_unset _ _ Hi) as [_ ->]. reflexivity.
Qed.


Lemma geocoding_attempts_witness :
  run_tracks (example_env two_segments no_service) crate_config two_segments
  = Some (mkRunState (mkInfo None None None None 200 20 0)
                     [mkCoord 0 20; mkCoord 100 40] [mkPoint 0 0; mkPoint 200 0]) /\
  [mkPoint 0 0; mkPoint 200 0]
  = lookup_points (photon (example_env two_segments no_service)) (all_segments two_segments).
Proof.
  assert (H : run_tracks (example_env two_segments no_service) crate_config two_segments
              = Some (mkRunState (mkInfo None None None None 200 20 0)
                                 [mkCoord 0 20; mkCoord 100 40] [mkPoint 0 0; mkPoint 200 0]))
    by reflexivity.
  split; [exact H|].
  exact (geocoding_attempts _ _ _ _ H).
Defined.

(** C4 counterexample: with a geocoder that always fails and two segments,
    two lookups are attempted (one per segment) and the run completes with
    no location. *)
Lemma geocoding_counterexample :
  match run_tracks (example_env two_segments no_service) crate_config two_segments with
  | Some st => st_requests st = [mkPoint 0 0; mkPoint 200 0]
  | None => False
  end /\
  match open (example_env two_segments no_service) crate_config "f" with
  | Ok info => location info = None
  | _ => False
  end.
Proof. vm_compute. split; reflexivity. Qed.

(** ** Start time *)

(** C5 (amended): the start time is the timestamp of the first waypoint of
    the first segment (in track and segment order) whose first waypoint has
    one; no other waypoint's timestamp is read. *)
Theorem start_time (env : Env) (cfg : Config) (path : string) (gpx : Gpx) (info : GpxInfo) :
  fs_read env path = Parsed gpx ->
  open env cfg path = Ok info ->
  datetime info = first_segment_time (all_segments gpx).
Proof.
  intros Hr Ho. destruct (open_ok_run _ _ _ _ _ Hr Ho) as (st & E & <-).
  destruct (run_tracks_segments _ _ _ _ E) as (i0 & Hi & Hs).
  rewrite (process_segments_datetime _ _ _ _ _ Hs). cbn [st_info].
  destruct (init_info_unset _ _ Hi) as [-> _]. reflexivity.
Qed.

Lemma start_time_witness :
  fs_read (example_env (one_segment [wp 0 10 (Some 7); wp 100 20 None]) no_service) "f"
    = Parsed (one_segment [wp 0 10 (Some 7); wp 100 20 None]) /\
  open (example_env (one_segment [wp 0 10 (Some 7); wp 100 20 None]) no_service) crate_config "f"
    = Ok (mkInfo (Some "t"%string) None (Some 7) None 100 10 0) /\
  datetime (mkInfo (Some "t"%string) None (Some 7) None 100 10 0)
    = first_segment_time (all_segments (one_segment [wp 0 10 (Some 7); wp 100 20 None])).
Proof.
  assert (H1 : fs_read (example_env (one_segment [wp 0 10 (Some 7); wp 100 20 None]) no_service)
                 "f" = Parsed (one_segment [wp 0 10 (Some 7); wp 100 20 None])) by reflexivity.
  assert (H2 : open (example_env (one_segment [wp 0 10 (Some 7); wp 100 20 None]) no_service)
                 crate_config "f" = Ok (mkInfo (Some "t"%string) None (Some 7) None 100 10 0))
    by reflexivity.
  split; [exact H1|]. split; [exact H2|].
  exact (start_time _ _ _ _ _ H1 H2).
Defined.

(** C5 counterexample: in the segment [(0, no time); (100, time 5)] the
    second waypoint is kept and carries the first non-null timestamp of the
    kept stream, yet the summary has no start time. *)
Lemma start_time_counterexample :
  fst (fst (waypoint_step (example_env (one_segment [wp 0 10 None; wp 100 20 (Some 5)]) no_service)
              crate_config (wp 0 10 None) (wp 100 20 (Some 5)) GpxInfo_new []))
    = wp 100 20 (Some 5) /\
  match open (example_env (one_segment [wp 0 10 None; wp 100 20 (Some 5)]) no_service)
          crate_config "f" with
  | Ok info => datetime info = None
  | _ => False
  end.
Proof. vm_compute. split; reflexivity. Qed.

(** ** Uphill and downhill *)

Ltac split_ifs_eqn :=
  repeat match goal with |- context [if ?b then _ else _] => destruct b eqn:? end;
  rewrite ?Z.leb_le, ?Z.leb_gt in *.

Lemma waypoint_step_totals env cfg prev cur info shape :
  uphill info <= uphill (snd (fst (waypoint_step env cfg prev cur info shape))) /\
  downhill info <= downhill (snd (fst (waypoint_step env cfg prev cur info shape))).
Proof.
  unfold waypoint_step.
  destruct (elevation cur); destruct (elevation prev); split_ifs_eqn; cbn; lia.
Qed.

Lemma waypoints_loop_totals env cfg ws : forall prev info shape,
  uphill info <= uphill (snd (fst (waypoints_loop env cfg prev ws info shape))) /\
  downhill info <= downhill (snd (fst (waypoints_loop env cfg prev ws info shape))).
Proof.
  induction ws as [|cur ws IH]; intros prev info shape; simpl; [lia|].
  pose proof (waypoint_step_totals env cfg prev cur info shape) as [H1 H2].
  destruct (waypoint_step env cfg prev cur info shape) as [[p' i'] s'].
  simpl in H1, H2. destruct (IH p' i' s'). lia.
Qed.

Lemma lookup_fold_totals (fs : list Feature) : forall info,
  let r := fold_left (fun i f => match properties f with
                                 | Some props => set_location i (Some (format_location props))
                                 | None => i
                                 end) fs info in
  uphill r = uphill info /\ downhill r = downhill info.
Proof.
  induction fs as [|f fs IH]; intros info; simpl; [auto|].
  destruct (properties f) as [props|]; [|apply IH].
  destruct (IH (set_location info (Some (format_location props)))) as [H1 H2].
  simpl in H1, H2. auto.
Qed.

Lemma photon_lookup_totals service info p :
  uphill (photon_lookup service info p) = uphill info /\
  downhill (photon_lookup service info p) = downhill info.
Proof.
  unfold photon_lookup. destruct (service p) as [fs|]; [apply lookup_fold_totals|auto].
Qed.

Lemma process_segment_totals env cfg st seg st' :
  process_segment env cfg st seg = Some st' ->
  uphill (st_info st) <= uphill (st_info st') /\
  downhill (st_info st) <= downhill (st_info st').
Proof.
  unfold process_segment. destruct (points seg) as [|w rest]; [discriminate|].
  destruct st as [info shape reqs]. cbn [st_info st_shape st_requests].
  set (info1 := match datetime info with Some _ => info | None => _ end).
  assert (Hi1 : uphill info1 = uphill info /\ downhill info1 = downhill info)
    by (subst info1; destruct (datetime info); auto).
  destruct (match location info1 with None => _ | Some _ => _ end) as [info2 reqs2] eqn:E2.
  assert (Hi2 : uphill info2 = uphill info /\ downhill info2 = downhill info).
  { destruct (location info1).
    - injection E2 as <- _. exact Hi1.
    - injection E2 as <- _. destruct (photon_lookup_totals (photon env) info1 (wp_point w)).
      lia. }
  pose proof (waypoints_loop_totals env cfg rest w info2 shape) as [L1 L2].
  destruct (waypoints_loop env cfg w rest info2 shape) as [[p3 i3] s3].
  intros E. injection E as <-. simpl in *. lia.
Qed.

Lemma process_segments_totals env cfg segs : forall st st',
  process_segments env cfg st segs = Some st' ->
  uphill (st_info st) <= uphill (st_info st') /\
  downhill (st_info st) <= downhill (st_info st').
Proof.
  induction segs as [|seg segs IH]; intros st st'; simpl.
  - intros E. injection E as <-. lia.
  - destruct (process_segment env cfg st seg) as [s1|] eqn:E1; [|discriminate].
    intros E. destruct (IH _ _ E). destruct (process_segment_totals _ _ _ _ _ E1). lia.
Qed.

Lemma init_info_totals gpx info :
  init_info gpx = Some info -> uphill info = 0 /\ downhill info = 0.
Proof.
  unfold init_info. destruct (tracks gpx); [discriminate|].
  intros E. injection E as <-.
  destruct (metadata gpx); cbn;
    repeat match goal with |- context [match ?x with Some _ => _ | None => _ end] =>
                             destruct x end; cbn; auto.
Qed.

Lemma last_cons_default {A} (c : A) (l : list A) d : last (c :: l) d = last l c.
Proof.
  revert c d. induction l as [|x l IH]; intros c d; [reflexivity|].
  change (last (c :: x :: l) d) with (last (x :: l) d).
  rewrite (IH x d), (IH x c). reflexivity.
Qed.

Lemma simpl_loop_spec (rest : list Coordinate) : forall previous up down u w,
  simpl_loop previous rest up down = (u, w) ->
  up <= u /\ down <= w /\ u - w = up - down + (cy (last rest previous) - cy previous).
Proof.
  induction rest as [|c rest IH]; intros previous up down u w; cbn [simpl_loop].
  - intros E. injection E as <- <-. simpl. lia.
  - rewrite last_cons_default.
    destruct (0 <=? cy c - cy previous) eqn:H; rewrite ?Z.leb_le, ?Z.leb_gt in H;
      intros E; apply IH in E; lia.
Qed.

(** C6 (amended): the raw totals of every run are non-negative; for every
    profile, the totals computed over consecutive samples (the computation
    [open] applies to the simplified profile) are non-negative and their
    difference is the net elevation change from the first to the last
    sample. *)
Theorem uphill_downhill_totals (env : Env) (cfg : Config) (gpx : Gpx) (st : RunState)
    (ps : list Coordinate) (up down : Z) (d : Coordinate) :
  run_tracks env cfg gpx = Some st ->
  simplified_totals ps = Some (up, down) ->
  0 <= uphill (st_info st) /\ 0 <= downhill (st_info st) /\
  0 <= up /\ 0 <= down /\ up - down = cy (last ps d) - cy (hd d ps).
Proof.
  intros E Hs. destruct (run_tracks_segments _ _ _ _ E) as (info & Hi & Hp).
  destruct (process_segments_totals _ _ _ _ _ Hp) as [T1 T2].
  destruct (init_info_totals _ _ Hi) as [I1 I2]. cbn [st_info] in T1, T2.
  destruct ps as [|previous rest]; [discriminate|].
  injection Hs as Hs. apply simpl_loop_spec in Hs as (S1 & S2 & S3).
  rewrite last_cons_default. cbn [hd]. lia.
Qed.

Lemma uphill_downhill_totals_witness :
  run_tracks (example_env two_segments no_service) crate_config two_segments
  = Some (mkRunState (mkInfo None None None None 200 20 0)
                     [mkCoord 0 20; mkCoord 100 40] [mkPoint 0 0; mkPoint 200 0]) /\
  simplified_totals [mkCoord 0 0; mkCoord 10 5; mkCoord 20 3] = Some (5, 2) /\
  0 <= 20 /\ 0 <= 0 /\ 0 <= 5 /\ 0 <= 2 /\
  5 - 2 = cy (last [mkCoord 0 0; mkCoord 10 5; mkCoord 20 3] (mkCoord 0 0))
          - cy (hd (mkCoord 0 0) [mkCoord 0 0; mkCoord 10 5; mkCoord 20 3]).
Proof.
  assert (H1 : run_tracks (example_env two_segments no_service) crate_config two_segments
               = Some (mkRunState (mkInfo None None None None 200 20 0)
                                  [mkCoord 0 20; mkCoord 100 40] [mkPoint 0 0; mkPoint 200 0]))
    by reflexivity.
  assert (H2 : simplified_totals [mkCoord 0 0; mkCoord 10 5; mkCoord 20 3] = Some (5, 2))
    by reflexivity.
  split; [exact H1|]. split; [exact H2|].
  exact (uphill_downhill_totals _ _ _ _ _ _ _ (mkCoord 0 0) H1 H2).
Defined.

(** C6 counterexample: for the segment [(0, 0 m); (100, 10 m)] the run
    completes with uphill 10 and downhill 0, while its raw profile is the
    single sample (0, 10), whose net change from first to last sample is 0. *)
Lemma uphill_downhill_counterexample :
  match run_tracks (example_env (one_segment [wp 0 0 None; wp 100 10 None]) no_service)
          crate_config (one_segment [wp 0 0 None; wp 100 10 None]) with
  | Some st =>
      st_shape st = [mkCoord 0 10] /\
      uphill (st_info st) - downhill (st_info st) = 10 /\
      uphill (st_info st) - downhill (st_info st)
        <> cy (last (st_shape st) (mkCoord 0 0)) - cy (hd (mkCoord 0 0) (st_shape st))
  | None => False
  end /\
  match open (example_env (one_segment [wp 0 0 None; wp 100 10 None]) no_service)
          crate_config "f" with
  | Ok _ => True
  | _ => False
  end.
Proof. vm_compute. repeat split. discriminate. Qed.

(** ** The location string *)

Lemma string_app_assoc (a b c : string) : ((a ++ b) ++ c)%string = (a ++ (b ++ c))%string.
Proof. induction a as [|x a IH]; simpl; [reflexivity|]. rewrite IH. reflexivity. Qed.

Lemma string_app_nil_r (a : string) : (a ++ EmptyString)%string = a.
Proof. induction a as [|x a IH]; simpl; [reflexivity|]. rewrite IH. reflexivity. Qed.

Lemma list_ascii_of_string_app (a b : string) :
  list_ascii_of_string (a ++ b) = list_ascii_of_string a ++ list_ascii_of_string b.
Proof. induction a as [|x a IH]; simpl; [reflexivity|]. rewrite IH. reflexivity. Qed.

Lemma string_rev_involutive (s : string) : string_rev (string_rev s) = s.
Proof.
  unfold string_rev.
  rewrite list_ascii_of_string_of_list_ascii, rev_involutive, string_of_list_ascii_of_string.
  reflexivity.
Qed.

Lemma string_rev_snoc (t : string) (c : ascii) :
  string_rev (t ++ String c EmptyString) = String c (string_rev t).
Proof.
  unfold string_rev. rewrite list_ascii_of_string_app. simpl. rewrite rev_app_distr.
  reflexivity.
Qed.

(** A string opening and closing with a double quote is left as it is by
    [trim]. *)
Lemma trim_between_quotes (m t : string) :
  String quote m = (t ++ String quote EmptyString)%string ->
  trim (String quote m) = String quote m.
Proof.
  intros E. unfold trim.
  change (trim_start (String quote m)) with (String quote m).
  rewrite E, string_rev_snoc.
  change (trim_start (String quote (string_rev t))) with (String quote (string_rev t)).
  rewrite <- string_rev_snoc, string_rev_involutive. reflexivity.
Qed.

Lemma remove_quotes_app (a b : string) :
  remove_quotes (a ++ b) = (remove_quotes a ++ remove_quotes b)%string.
Proof.
  induction a as [|x a IH]; simpl; [reflexivity|].
  destruct (Ascii.eqb x quote); simpl; rewrite IH; reflexivity.
Qed.

Lemma plain_char (c : ascii) :
  negb (Ascii.eqb c quote) && negb (Ascii.eqb c backslash) && Nat.leb 32 (nat_of_ascii c)
  = true ->
  escape_char c = String c EmptyString /\ Ascii.eqb c quote = false.
Proof.
  intros H. apply andb_prop in H as [H H3]. apply andb_prop in H as [H1 H2].
  apply negb_true_iff in H1, H2. apply Nat.leb_le in H3.
  unfold escape_char. rewrite H1, H2.
  destruct (Nat.eqb_spec (nat_of_ascii c) 8); [lia|].
  destruct (Nat.eqb_spec (nat_of_ascii c) 12); [lia|].
  destruct (Nat.eqb_spec (nat_of_ascii c) 10); [lia|].
  destruct (Nat.eqb_spec (nat_of_ascii c) 13); [lia|].
  destruct (Nat.eqb_spec (nat_of_ascii c) 9); [lia|].
  destruct (Nat.ltb_spec (nat_of_ascii c) 32); [lia|]. auto.
Qed.

Lemma plain_text_escape (s : string) :
  plain_text s = true -> escape s = s /\ remove_quotes s = s.
Proof.
  induction s as [|c s IH]; simpl; [auto|].
  intros H. apply andb_prop in H as [Hc Hs].
  destruct (plain_char c Hc) as [E Q]. destruct (IH Hs) as [IH1 IH2].
  rewrite E, Q, IH1, IH2. auto.
Qed.

Lemma json_display_plain (s : string) :
  plain_text s = true ->
  json_display (JString s) = String quote (s ++ String quote EmptyString) /\
  remove_quotes (json_display (JString s)) = s.
Proof.
  intros H. destruct (plain_text_escape s H) as [E R]. simpl. rewrite E.
  split; [reflexivity|].
  replace (Ascii.eqb quote quote) with true by reflexivity.
  rewrite remove_quotes_app, R. simpl. apply string_app_nil_r.
Qed.

(** C9 (amended): for a geocoding record whose present fields are strings
    without double quotes, backslashes or control characters, the location
    string is name, street, city and country joined by ", " in this order,
    an absent field giving the empty string, so an absent field leaves an
    empty comma-separated slot. *)
Theorem format_location_fields (props : Props) (n s c k : string) :
  get_or_default "name" props = JString n ->
  get_or_default "street" props = JString s ->
  get_or_default "city" props = JString c ->
  get_or_default "country" props = JString k ->
  plain_text n = true -> plain_text s = true -> plain_text c = true -> plain_text k = true ->
  format_location props = (n ++ ", " ++ s ++ ", " ++ c ++ ", " ++ k)%string.
Proof.
  intros Hn Hs Hc Hk Pn Ps Pc Pk.
  unfold format_location. cbv zeta. rewrite Hn, Hs, Hc, Hk.
  destruct (json_display_plain n Pn) as [Dn Rn].
  destruct (json_display_plain s Ps) as [Ds Rs].
  destruct (json_display_plain c Pc) as [Dc Rc].
  destruct (json_display_plain k Pk) as [Dk Rk].
  set (F := (json_display (JString n) ++ ", " ++ json_display (JString s) ++ ", "
             ++ json_display (JString c) ++ ", " ++ json_display (JString k))%string).
  assert (E1 : F = String quote ((n ++ String quote EmptyString) ++ ", "
                     ++ json_display (JString s) ++ ", " ++ json_display (JString c) ++ ", "
                     ++ json_display (JString k))%string)
    by (subst F; rewrite Dn; reflexivity).
  assert (E2 : F = ((json_display (JString n) ++ ", " ++ json_display (JString s) ++ ", "
                     ++ json_display (JString c) ++ ", " ++ String quote k)
                    ++ String quote EmptyString)%string)
    by (subst F; rewrite Dk, !string_app_assoc; reflexivity).
  rewrite E1, (trim_between_quotes _ _ (eq_trans (eq_sym E1) E2)), <- E1.
  subst F. rewrite !remove_quotes_app, Rn, Rs, Rc, Rk. reflexivity.
Qed.

Lemma format_location_fields_witness :
  get_or_default "name" bern_props = JString EmptyString /\
  get_or_default "street" bern_props = JString "Main" /\
  get_or_default "city" bern_props = JString "Bern" /\
  get_or_default "country" bern_props = JString "Switzerland" /\
  format_location bern_props = (EmptyString ++ ", " ++ "Main" ++ ", " ++ "Bern" ++ ", "
                                ++ "Switzerland")%string.
Proof.
  do 4 (split; [reflexivity|]).
  apply format_location_fields; reflexivity.
Defined.

(** C9 counterexample: a record without a name gives the location
    ", Main, Bern, Switzerland", with an empty leading slot, also as the
    location of a completed run. *)
Lemma format_location_counterexample :
  props_get "name" bern_props = None /\
  format_location bern_props = ", Main, Bern, Switzerland"%string /\
  match open (example_env (one_segment [wp 0 10 None; wp 100 20 None]) bern_service)
          crate_config "f" with
  | Ok info => location info = Some ", Main, Bern, Switzerland"%string
  | _ => False
  end.
Proof. vm_compute. repeat split. Qed.

(** ** Further properties of [open] *)

Lemma set_location_eta (i : GpxInfo) : set_location i (location i) = i.
Proof. destruct i; reflexivity. Qed.

Lemma photon_lookup_set_location service info p :
  photon_lookup service info p = set_location info (location (photon_lookup service info p)).
Proof.
  unfold photon_lookup. destruct (service p) as [fs|]; [|symmetry; apply set_location_eta].
  revert info. induction fs as [|f fs IH]; intros info; simpl.
  - symmetry. apply set_location_eta.
  - destruct (properties f) as [props|]; [|apply IH].
    rewrite IH. reflexivity.
Qed.

Lemma waypoint_step_set_location env cfg prev cur info shape v :
  waypoint_step env cfg prev cur (set_location info v) shape
  = let '(p, i, s) := waypoint_step env cfg prev cur info shape in (p, set_location i v, s).
Proof.
  unfold waypoint_step.
  destruct (elevation cur); destruct (elevation prev); split_ifs; reflexivity.
Qed.

Lemma waypoints_loop_set_location env cfg ws : forall prev info shape v,
  waypoints_loop env cfg prev ws (set_location info v) shape
  = let '(p, i, s) := waypoints_loop env cfg prev ws info shape in (p, set_location i v, s).
Proof.
  induction ws as [|cur ws IH]; intros prev info shape v; [reflexivity|].
  cbn [waypoints_loop]. rewrite waypoint_step_set_location.
  destruct (waypoint_step env cfg prev cur info shape) as [[p1 i1] s1]. apply IH.
Qed.

Lemma waypoints_loop_with_service env service cfg ws : forall prev info shape,
  waypoints_loop (with_service env service) cfg prev ws info shape
  = waypoints_loop env cfg prev ws info shape.
Proof.
  induction ws as [|cur ws IH]; intros prev info shape; [reflexivity|].
  cbn [waypoints_loop].
  replace (waypoint_step (with_service env service) cfg prev cur info shape)
    with (waypoint_step env cfg prev cur info shape) by reflexivity.
  destruct (waypoint_step env cfg prev cur info shape) as [[p1 i1] s1]. apply IH.
Qed.

Ltac finish_shift :=
  intros info shape; cbn; split; [reflexivity|];
  destruct info; unfold set_totals; cbn; f_equal; lia.

(** A step moves the totals by amounts that depend only on the two waypoints. *)
Lemma waypoint_step_shift env cfg prev cur : exists p1 d1 u1 w1, forall info shape,
  fst (fst (waypoint_step env cfg prev cur info shape)) = p1 /\
  snd (fst (waypoint_step env cfg prev cur info shape))
  = set_totals info (distance info + d1) (uphill info + u1) (downhill info + w1).
Proof.
  unfold waypoint_step.
  set (gd := geodesic_distance env (wp_point prev) (wp_point cur)).
  destruct (elevation cur) as [ce|]; destruct (elevation prev) as [pe|].
  - destruct (keeps cfg gd (Some (ce - pe))).
    + destruct (0 <=? ce - pe).
      * exists cur, gd, (ce - pe), 0. finish_shift.
      * exists cur, gd, 0, (- (ce - pe)). finish_shift.
    + exists prev, 0, 0, 0. finish_shift.
  - destruct (keeps cfg gd None).
    + exists cur, gd, 0, 0. finish_shift.
    + exists prev, 0, 0, 0. finish_shift.
  - destruct (keeps cfg gd None).
    + exists cur, gd, 0, 0. finish_shift.
    + exists prev, 0, 0, 0. finish_shift.
  - destruct (keeps cfg gd None).
    + exists cur, gd, 0, 0. finish_shift.
    + exists prev, 0, 0, 0. finish_shift.
Qed.

Lemma waypoints_loop_shift env cfg ws : forall prev, exists p' dd du dw,
  forall info shape,
    fst (fst (waypoints_loop env cfg prev ws info shape)) = p' /\
    snd (fst (waypoints_loop env cfg prev ws info shape))
    = set_totals info (distance info + dd) (uphill info + du) (downhill info + dw).
Proof.
  induction ws as [|cur ws IH]; intros prev.
  - exists prev, 0, 0, 0. finish_shift.
  - destruct (waypoint_step_shift env cfg prev cur) as (p1 & d1 & u1 & w1 & S).
    destruct (IH p1) as (p' & d2 & u2 & w2 & H).
    exists p', (d1 + d2), (u1 + u2), (w1 + w2). intros info shape. cbn [waypoints_loop].
    destruct (S info shape) as [S1 S2].
    destruct (waypoint_step env cfg prev cur info shape) as [[q i1] s1].
    cbn in S1, S2. subst q i1.
    destruct (H (set_totals info (distance info + d1) (uphill info + u1)
                   (downhill info + w1)) s1) as [H1 H2].
    split; [exact H1|]. rewrite H2. destruct info; unfold set_totals; cbn; f_equal; lia.
Qed.

Lemma segment_totals_loop env cfg seg prev rest :
  points seg = prev :: rest ->
  forall info shape,
    snd (fst (waypoints_loop env cfg prev rest info shape))
    = let '(d, u, w) := segment_totals env cfg seg in
      set_totals info (distance info + d) (uphill info + u) (downhill info + w).
Proof.
  intros Ep info shape. unfold segment_totals. rewrite Ep.
  destruct (waypoints_loop_shift env cfg rest prev) as (p' & dd & du & dw & H).
  rewrite (proj2 (H info shape)), (proj2 (H GpxInfo_new [])). reflexivity.
Qed.

(** What a segment does to the fields other than [datetime] and [location]. *)
Lemma process_segment_info env cfg st seg st' :
  process_segment env cfg st seg = Some st' ->
  name (st_info st') = name (st_info st) /\
  description (st_info st') = description (st_info st) /\
  let '(d, u, w) := segment_totals env cfg seg in
  distance (st_info st') = distance (st_info st) + d /\
  uphill (st_info st') = uphill (st_info st) + u /\
  downhill (st_info st') = downhill (st_info st) + w.
Proof.
  unfold process_segment. destruct (points seg) as [|prev rest] eqn:Ep; [discriminate|].
  destruct st as [info shape reqs]. cbn [st_info st_shape st_requests].
  set (info1 := match datetime info with Some _ => info | None => _ end).
  assert (H1 : name info1 = name info /\ description info1 = description info /\
               distance info1 = distance info /\ uphill info1 = uphill info /\
               downhill info1 = downhill info)
    by (subst info1; destruct (datetime info); cbn; auto).
  destruct (match location info1 with None => _ | Some _ => _ end) as [info2 reqs2] eqn:E2.
  assert (H2 : name info2 = name info /\ description info2 = description info /\
               distance info2 = distance info /\ uphill info2 = uphill info /\
               downhill info2 = downhill info).
  { destruct (location info1); injection E2 as <- _; [exact H1|].
    rewrite photon_lookup_set_location. exact H1. }
  pose proof (segment_totals_loop env cfg seg prev rest Ep info2 shape) as L.
  destruct (waypoints_loop env cfg prev rest info2 shape) as [[p3 i3] s3].
  intros E. injection E as <-. cbn [st_info fst snd] in *. rewrite L.
  destruct (segment_totals env cfg seg) as [[d u] w]. cbn.
  destruct H2 as (-> & -> & -> & -> & ->). auto.
Qed.

Lemma process_segments_info env cfg segs : forall st st',
  process_segments env cfg st segs = Some st' ->
  name (st_info st') = name (st_info st) /\
  description (st_info st') = description (st_info st) /\
  distance (st_info st') = distance (st_info st)
    + sum_Z (map (fun seg => fst (fst (segment_totals env cfg seg))) segs) /\
  uphill (st_info st') = uphill (st_info st)
    + sum_Z (map (fun seg => snd (fst (segment_totals env cfg seg))) segs) /\
  downhill (st_info st') = downhill (st_info st)
    + sum_Z (map (fun seg => snd (segment_totals env cfg seg)) segs).
Proof.
  induction segs as [|seg segs IH]; intros st st'; simpl.
  - intros E. injection E as <-. rewrite !Z.add_0_r. auto.
  - destruct (process_segment env cfg st seg) as [s1|] eqn:E1; [|discriminate].
    intros E. destruct (IH _ _ E) as (N & D & T1 & T2 & T3).
    pose proof (process_segment_info _ _ _ _ _ E1) as (N1 & D1 & T).
    destruct (segment_totals env cfg seg) as [[d u] w]. cbn in *.
    destruct T as (U1 & U2 & U3). repeat split; lia || congruence.
Qed.

Lemma init_info_fields gpx info :
  init_info gpx = Some info ->
  exists t rest, tracks gpx = t :: rest /\
  name info = match match metadata gpx with Some m => meta_name m | None => None end with
              | Some n => Some n
              | None => track_name t
              end /\
  description info =
    match match metadata gpx with Some m => meta_description m | None => None end with
    | Some d => Some d
    | None => track_description t
    end /\
  distance info = 0 /\ uphill info = 0 /\ downhill info = 0.
Proof.
  unfold init_info. destruct (tracks gpx) as [|t rest]; [discriminate|].
  intros E. injection E as <-. exists t, rest. split; [reflexivity|].
  destruct (metadata gpx) as [m|]; cbn;
    [destruct (meta_name m); destruct (meta_description m)|]; cbn; auto.
Qed.

(** The summary's name is the file-level metadata name when there is one,
    else the first track's name (later tracks are never consulted); the
    description follows the same rule. *)
Theorem summary_name_description (env : Env) (cfg : Config) (path : string) (gpx : Gpx)
    (info : GpxInfo) :
  fs_read env path = Parsed gpx ->
  open env cfg path = Ok info ->
  exists t rest, tracks gpx = t :: rest /\
  name info = match match metadata gpx with Some m => meta_name m | None => None end with
              | Some n => Some n
              | None => track_name t
              end /\
  description info =
    match match metadata gpx with Some m => meta_description m | None => None end with
    | Some d => Some d
    | None => track_description t
    end.
Proof.
  intros Hr Ho. destruct (open_ok_run _ _ _ _ _ Hr Ho) as (st & E & <-).
  destruct (run_tracks_segments _ _ _ _ E) as (i0 & Hi & Hs).
  destruct (process_segments_info _ _ _ _ _ Hs) as (N & D & _).
  destruct (init_info_fields _ _ Hi) as (t & rest & Ht & N0 & D0 & _).
  exists t, rest. cbn [st_info] in N, D. rewrite N, D. auto.
Qed.

Lemma summary_name_description_witness :
  let g := mkGpx (Some (mkMetadata (Some "file"%string) None))
                 [mkTrack (Some "track"%string) (Some "desc"%string)
                          [mkSegment [wp 0 10 None; wp 100 20 None]];
                  mkTrack (Some "other"%string) (Some "other"%string)
                          [mkSegment [wp 200 10 None; wp 300 20 None]]] in
  fs_read (example_env g no_service) "f" = Parsed g /\
  open (example_env g no_service) crate_config "f"
    = Ok (mkInfo (Some "file"%string) (Some "desc"%string) None None 200 20 0) /\
  exists t rest, tracks g = t :: rest /\
  Some "file"%string = match match metadata g with Some m => meta_name m | None => None end with
                       | Some n => Some n
                       | None => track_name t
                       end /\
  Some "desc"%string =
    match match metadata g with Some m => meta_description m | None => None end with
    | Some d => Some d
    | None => track_description t
    end.
Proof.
  intros g.
  assert (H1 : fs_read (example_env g no_service) "f" = Parsed g) by reflexivity.
  assert (H2 : open (example_env g no_service) crate_config "f"
               = Ok (mkInfo (Some "file"%string) (Some "desc"%string) None None 200 20 0))
    by reflexivity.
  split; [exact H1|]. split; [exact H2|].
  exact (summary_name_description _ _ _ _ _ H1 H2).
Defined.

Lemma set_location_twice (i : GpxInfo) v w : set_location (set_location i v) w = set_location i w.
Proof. destruct i; reflexivity. Qed.

Lemma set_location_datetime (i : GpxInfo) t :
  set_location (match datetime i with None => set_datetime i t | Some _ => i end) None
  = match datetime (set_location i None) with
    | None => set_datetime (set_location i None) t
    | Some _ => set_location i None
    end.
Proof. destruct i as [n d [dt|] l x u w]; reflexivity. Qed.

(** A segment's result, up to the location it fills in. *)
Lemma process_segment_location env cfg st seg st' :
  process_segment env cfg st seg = Some st' ->
  exists prev rest v, points seg = prev :: rest /\
    let '(_, i3, s3) :=
      waypoints_loop env cfg prev rest
        (set_location (match datetime (st_info st) with
                       | None => set_datetime (st_info st) (time prev)
                       | Some _ => st_info st
                       end) None) (st_shape st) in
    st_info st' = set_location i3 v /\ st_shape st' = s3.
Proof.
  unfold process_segment. destruct (points seg) as [|prev rest]; [discriminate|].
  destruct st as [info shape reqs]. cbn [st_info st_shape st_requests].
  set (info1 := match datetime info with Some _ => info | None => _ end).
  destruct (match location info1 with None => _ | Some _ => _ end) as [info2 reqs2] eqn:E2.
  assert (H2 : exists v, info2 = set_location (set_location info1 None) v).
  { destruct (location info1) eqn:HL; injection E2 as <- _.
    - exists (location info1). rewrite set_location_twice. symmetry. apply set_location_eta.
    - exists (location (photon_lookup (photon env) info1 (wp_point prev))).
      rewrite set_location_twice. apply photon_lookup_set_location. }
  destruct H2 as [v ->]. rewrite waypoints_loop_set_location.
  intros E. exists prev, rest, v. split; [reflexivity|]. fold info1.
  destruct (waypoints_loop env cfg prev rest (set_location info1 None) shape) as [[p3 i3] s3].
  injection E as <-. cbn. split; reflexivity.
Qed.

Lemma process_segment_none env cfg st seg :
  process_segment env cfg st seg = None <-> points seg = [].
Proof.
  unfold process_segment. destruct (points seg); [tauto|].
  destruct (match location _ with None => _ | Some _ => _ end).
  destruct (waypoints_loop _ _ _ _ _ _) as [[? ?] ?]. split; discriminate.
Qed.

Lemma process_segments_geocoder env service cfg segs : forall st1 st2,
  set_location (st_info st1) None = set_location (st_info st2) None ->
  st_shape st1 = st_shape st2 ->
  match process_segments env cfg st1 segs,
        process_segments (with_service env service) cfg st2 segs with
  | None, None => True
  | Some s1, Some s2 =>
      set_location (st_info s1) None = set_location (st_info s2) None /\
      st_shape s1 = st_shape s2
  | _, _ => False
  end.
Proof.
  induction segs as [|seg segs IH]; intros st1 st2 HI HS; cbn [process_segments]; [auto|].
  destruct (process_segment env cfg st1 seg) as [s1|] eqn:E1;
    destruct (process_segment (with_service env service) cfg st2 seg) as [s2|] eqn:E2.
  - apply IH.
    + destruct (process_segment_location _ _ _ _ _ E1) as (p & r & v1 & P1 & L1).
      destruct (process_segment_location _ _ _ _ _ E2) as (p' & r' & v2 & P2 & L2).
      rewrite P1 in P2. injection P2 as <- <-.
      rewrite waypoints_loop_with_service, set_location_datetime, <- HI, <- HS in L2.
      rewrite set_location_datetime in L1.
      destruct (waypoints_loop _ _ _ _ _ _) as [[p3 i3] s3].
      destruct L1 as [-> _]. destruct L2 as [-> _]. rewrite !set_location_twice. reflexivity.
    + destruct (process_segment_location _ _ _ _ _ E1) as (p & r & v1 & P1 & L1).
      destruct (process_segment_location _ _ _ _ _ E2) as (p' & r' & v2 & P2 & L2).
      rewrite P1 in P2. injection P2 as <- <-.
      rewrite waypoints_loop_with_service, set_location_datetime, <- HI, <- HS in L2.
      rewrite set_location_datetime in L1.
      destruct (waypoints_loop _ _ _ _ _ _) as [[p3 i3] s3].
      destruct L1 as [_ ->]. destruct L2 as [_ ->]. reflexivity.
  - apply process_segment_none in E2. destruct (process_segment_none env cfg st1 seg) as [_ H].
    rewrite (H E2) in E1. discriminate.
  - apply process_segment_none in E1.
    destruct (process_segment_none (with_service env service) cfg st2 seg) as [_ H].
    rewrite (H E1) in E2. discriminate.
  - exact I.
Qed.

Lemma run_tracks_unfold env cfg gpx :
  run_tracks env cfg gpx =
    match init_info gpx with
    | None => None
    | Some info => process_segments env cfg (mkRunState info [] []) (all_segments gpx)
    end.
Proof.
  unfold run_tracks, all_segments. destruct (init_info gpx); [|reflexivity].
  apply process_tracks_segments.
Qed.

(** The reverse-geocoding service decides nothing but the location: with
    any other service, [open] panics on the same inputs, and when it
    succeeds the summary differs at most in its location. *)
Theorem open_geocoder_only_location (env : Env) (cfg : Config) (path : string)
    (service : Point -> option (list Feature)) :
  cfg = root_config \/ cfg = crate_config ->
  match open env cfg path, open (with_service env service) cfg path with
  | Ok i1, Ok i2 => set_location i1 None = set_location i2 None
  | Panic, Panic => True
  | _, _ => False
  end.
Proof.
  intros Hc.
  assert (HS : simplifier cfg (with_service env service) = simplifier cfg env)
    by (destruct Hc as [-> | ->]; reflexivity).
  unfold open. rewrite HS. cbn [graphics_ok fs_read with_service].
  destruct (draws cfg && negb (graphics_ok env)); [exact I|].
  destruct (fs_read env path) as [| |gpx]; try exact I.
  rewrite !run_tracks_unfold. destruct (init_info gpx) as [info|]; [|exact I].
  pose proof (process_segments_geocoder env service cfg (all_segments gpx)
                (mkRunState info [] []) (mkRunState info [] []) eq_refl eq_refl) as G.
  destruct (process_segments env cfg _ _) as [s1|];
    destruct (process_segments (with_service env service) cfg _ _) as [s2|];
    try contradiction; [|exact I].
  destruct G as [GI GS]. rewrite GS.
  destruct (simplified_totals _); [exact GI|exact I].
Qed.

Lemma open_geocoder_only_location_witness :
  let g := mkGpx None [mkTrack None None
                         [mkSegment [wp 0 10 None; wp 100 20 None];
                          mkSegment [wp 200 10 None; wp 300 20 None]]] in
  open (example_env g no_service) crate_config "f"
    = Ok (mkInfo None None None None 200 20 0) /\
  open (with_service (example_env g no_service) partial_service) crate_config "f"
    = Ok (mkInfo None None None (Some ", Main, Bern, Switzerland"%string) 200 20 0) /\
  crate_config = crate_config /\
  match open (example_env g no_service) crate_config "f",
        open (with_service (example_env g no_service) partial_service) crate_config "f" with
  | Ok i1, Ok i2 => set_location i1 None = set_location i2 None
  | Panic, Panic => True
  | _, _ => False
  end.
Proof.
  intros g. split; [reflexivity|]. split; [vm_compute; reflexivity|].
  split; [reflexivity|].
  apply open_geocoder_only_location. right. reflexivity.
Defined.

Lemma ssorted_snoc (l : list Z) (a : Z) :
  StronglySorted Z.le l -> Forall (fun x => x <= a) l -> StronglySorted Z.le (l ++ [a]).
Proof.
  induction l as [|x l IH]; intros Hs Hf; cbn.
  - constructor; constructor.
  - inversion Hs as [|? ? Hs' Hx]; subst. inversion Hf as [|? ? Hxa Hf']; subst.
    constructor; [auto|]. apply Forall_app. split; [exact Hx|]. constructor; [lia|constructor].
Qed.

Lemma waypoint_step_profile env cfg prev cur info shape :
  (forall p q, 0 <= geodesic_distance env p q) ->
  0 <= distance info ->
  StronglySorted Z.le (map cx shape) ->
  Forall (fun c => 0 <= cx c <= distance info) shape ->
  let '(_, i, s) := waypoint_step env cfg prev cur info shape in
  distance info <= distance i /\
  StronglySorted Z.le (map cx s) /\ Forall (fun c => 0 <= cx c <= distance i) s.
Proof.
  intros Hg H0 Hs Hf.
  assert (Hsh : StronglySorted Z.le (map cx (match elevation cur with
                                              | Some e => shape ++ [mkCoord (distance info) e]
                                              | None => shape end)) /\
                Forall (fun c => 0 <= cx c <= distance info)
                  (match elevation cur with
                   | Some e => shape ++ [mkCoord (distance info) e]
                   | None => shape end)).
  { destruct (elevation cur) as [e|]; [|auto]. rewrite map_app. split.
    - apply ssorted_snoc; [exact Hs|]. apply Forall_map. eapply Forall_impl; [|exact Hf].
      cbn. lia.
    - apply Forall_app. split; [exact Hf|]. constructor; [cbn; lia|constructor]. }
  pose proof (Hg (wp_point prev) (wp_point cur)) as Hgd.
  destruct Hsh as [Hs' Hf'].
  unfold waypoint_step.
  destruct (keeps cfg _ _).
  - destruct (match elevation prev, elevation cur with Some _, Some _ => _ | _, _ => _ end)
      as [u w].
    cbn. split; [lia|]. split; [exact Hs'|]. eapply Forall_impl; [|exact Hf']. cbn. lia.
  - split; [lia|]. auto.
Qed.

Lemma waypoints_loop_profile env cfg ws : forall prev info shape,
  (forall p q, 0 <= geodesic_distance env p q) ->
  0 <= distance info ->
  StronglySorted Z.le (map cx shape) ->
  Forall (fun c => 0 <= cx c <= distance info) shape ->
  let '(_, i, s) := waypoints_loop env cfg prev ws info shape in
  distance info <= distance i /\
  StronglySorted Z.le (map cx s) /\ Forall (fun c => 0 <= cx c <= distance i) s.
Proof.
  induction ws as [|cur ws IH]; intros prev info shape Hg H0 Hs Hf.
  - cbn. split; [lia|]. auto.
  - cbn [waypoints_loop].
    pose proof (waypoint_step_profile env cfg prev cur info shape Hg H0 Hs Hf) as S.
    destruct (waypoint_step env cfg prev cur info shape) as [[p1 i1] s1].
    destruct S as (D1 & S1 & F1).
    pose proof (IH p1 i1 s1 Hg ltac:(lia) S1 F1) as L.
    destruct (waypoints_loop env cfg p1 ws i1 s1) as [[p2 i2] s2].
    destruct L as (D2 & S2 & F2). split; [lia|]. auto.
Qed.

Lemma set_location_datetime_distance (i : GpxInfo) t :
  distance (set_location (match datetime i with
                          | None => set_datetime i t
                          | Some _ => i
                          end) None) = distance i.
Proof. destruct i as [n d [dt|] l x u w]; reflexivity. Qed.

Lemma process_segments_profile env cfg segs : forall st st',
  (forall p q, 0 <= geodesic_distance env p q) ->
  0 <= distance (st_info st) ->
  StronglySorted Z.le (map cx (st_shape st)) ->
  Forall (fun c => 0 <= cx c <= distance (st_info st)) (st_shape st) ->
  process_segments env cfg st segs = Some st' ->
  distance (st_info st) <= distance (st_info st') /\
  StronglySorted Z.le (map cx (st_shape st')) /\
  Forall (fun c => 0 <= cx c <= distance (st_info st')) (st_shape st').
Proof.
  induction segs as [|seg segs IH]; intros st st' Hg H0 Hs Hf; cbn [process_segments].
  - intros E. injection E as <-. split; [lia|]. auto.
  - destruct (process_segment env cfg st seg) as [s1|] eqn:E1; [|discriminate].
    intros E.
    destruct (process_segment_location _ _ _ _ _ E1) as (p & r & v & _ & L).
    pose proof (waypoints_loop_profile env cfg r p
                  (set_location (match datetime (st_info st) with
                                 | None => set_datetime (st_info st) (time p)
                                 | Some _ => st_info st
                                 end) None) (st_shape st) Hg) as W.
    rewrite set_location_datetime_distance in W.
    specialize (W H0 Hs Hf).
    destruct (waypoints_loop _ _ _ _ _ _) as [[p3 i3] s3].
    destruct L as [LI LS]. destruct W as (D3 & S3 & F3).
    assert (Hd : distance (st_info s1) = distance i3) by (rewrite LI; destruct i3; reflexivity).
    rewrite <- LS, <- Hd in *.
    destruct (IH s1 st' Hg ltac:(lia) S3 F3 E) as (D4 & S4 & F4).
    split; [lia|]. auto.
Qed.

(** With a geodesic distance that is never negative, the elevation profile
    is ordered by position: the cumulative distance of each sample is at
    least that of every earlier sample, and lies between 0 and the total
    distance of the summary (a sample takes the distance reached before its
    waypoint's own step). *)
Theorem profile_positions_ordered (env : Env) (cfg : Config) (gpx : Gpx) (st : RunState) :
  (forall p q, 0 <= geodesic_distance env p q) ->
  run_tracks env cfg gpx = Some st ->
  StronglySorted Z.le (map cx (st_shape st)) /\
  Forall (fun c => 0 <= cx c <= distance (st_info st)) (st_shape st).
Proof.
  intros Hg E. destruct (run_tracks_segments _ _ _ _ E) as (i0 & Hi & Hs).
  destruct (init_info_fields _ _ Hi) as (_ & _ & _ & _ & _ & Z0 & _).
  assert (H0 : 0 <= distance (st_info (mkRunState i0 [] []))) by (cbn; lia).
  destruct (process_segments_profile env cfg _ _ _ Hg H0
              (SSorted_nil _) (Forall_nil _) Hs) as (_ & S & F).
  auto.
Qed.

Lemma profile_positions_ordered_witness :
  (forall p q, 0 <= geodesic_distance (example_env two_segments no_service) p q) /\
  run_tracks (example_env two_segments no_service) crate_config two_segments
    = Some (mkRunState (mkInfo None None None None 200 20 0)
              [mkCoord 0 20; mkCoord 100 40]
              [mkPoint 0 0; mkPoint 200 0]) /\
  StronglySorted Z.le (map cx [mkCoord 0 20; mkCoord 100 40]) /\
  Forall (fun c => 0 <= cx c <= 200)
    [mkCoord 0 20; mkCoord 100 40].
Proof.
  assert (Hg : forall p q, 0 <= geodesic_distance (example_env two_segments no_service) p q)
    by (intros p q; unfold example_env; cbn [geodesic_distance]; unfold taxicab; lia).
  assert (E : run_tracks (example_env two_segments no_service) crate_config two_segments
    = Some (mkRunState (mkInfo None None None None 200 20 0)
              [mkCoord 0 20; mkCoord 100 40]
              [mkPoint 0 0; mkPoint 200 0])) by reflexivity.
  split; [exact Hg|]. split; [exact E|].
  exact (profile_positions_ordered _ _ _ _ Hg E).
Defined.

Lemma lookup_fold_location (fs : list Feature) : forall info,
  location (fold_left (fun i f => match properties f with
                                  | Some props => set_location i (Some (format_location props))
                                  | None => i
                                  end) fs info)
  = match last_props fs with
    | Some props => Some (format_location props)
    | None => location info
    end.
Proof.
  induction fs as [|f fs IH]; intros info; [reflexivity|].
  cbn [fold_left last_props]. rewrite IH.
  destruct (last_props fs); [reflexivity|].
  destruct (properties f); reflexivity.
Qed.

Lemma photon_lookup_location service info p :
  location (photon_lookup service info p)
  = match lookup_result service p with
    | Some l => Some l
    | None => location info
    end.
Proof.
  unfold photon_lookup, lookup_result. destruct (service p) as [fs|]; [|reflexivity].
  rewrite lookup_fold_location. destruct (last_props fs); reflexivity.
Qed.

(** A lookup changes nothing but the location, and overwrites it once per
    feature with properties: the location it leaves is that of the LAST such
    feature of the response; without one (or on a failed request) the
    summary is left as it was. *)
Theorem photon_lookup_last_feature (service : Point -> option (list Feature))
    (info : GpxInfo) (p : Point) :
  photon_lookup service info p
  = set_location info (match lookup_result service p with
                       | Some l => Some l
                       | None => location info
                       end).
Proof.
  rewrite photon_lookup_set_location at 1. rewrite photon_lookup_location. reflexivity.
Qed.

Lemma process_segment_location_text env cfg st seg st' :
  process_segment env cfg st seg = Some st' ->
  exists w rest, points seg = w :: rest /\
    location (st_info st') =
      match location (st_info st) with
      | Some l => Some l
      | None => lookup_result (photon env) (wp_point w)
      end.
Proof.
  unfold process_segment. destruct (points seg) as [|w rest]; [discriminate|].
  intros E. exists w, rest. split; [reflexivity|].
  destruct st as [info shape reqs]. cbn [st_info st_shape st_requests] in *.
  set (info1 := match datetime info with Some _ => info | None => _ end) in E.
  assert (H1 : location info1 = location info)
    by (subst info1; destruct (datetime info); reflexivity).
  rewrite H1 in E.
  destruct (location info) as [l|] eqn:HL.
  - pose proof (waypoints_loop_fields env cfg rest w info1 shape) as [_ F].
    destruct (waypoints_loop env cfg w rest info1 shape) as [[p3 i3] s3].
    injection E as <-. cbn in *. congruence.
  - pose proof (waypoints_loop_fields env cfg rest w
                  (photon_lookup (photon env) info1 (wp_point w)) shape) as [_ F].
    destruct (waypoints_loop _ _ _ _ _ _) as [[p3 i3] s3].
    injection E as <-. cbn in *. rewrite F, photon_lookup_location, H1.
    destruct (lookup_result _ _); reflexivity.
Qed.

Lemma process_segments_location env cfg segs : forall st st',
  process_segments env cfg st segs = Some st' ->
  location (st_info st') =
    match location (st_info st) with
    | Some l => Some l
    | None => first_location (photon env) segs
    end.
Proof.
  induction segs as [|seg segs IH]; intros st st'; cbn [process_segments first_location].
  - intros E. injection E as <-. destruct (location _); reflexivity.
  - destruct (process_segment env cfg st seg) as [s1|] eqn:E1; [|discriminate].
    intros E. rewrite (IH _ _ E).
    destruct (process_segment_location_text _ _ _ _ _ E1) as (w & rest & Hp & HL).
    rewrite Hp, HL. destruct (location (st_info st)); [reflexivity|].
    destruct (lookup_result _ _); reflexivity.
Qed.

(** The summary's location is the text of the first lookup that yields
    one, over the first waypoints of the segments in order: once a segment
    has set it, no later segment changes it. *)
Theorem summary_location_first (env : Env) (cfg : Config) (gpx : Gpx) (st : RunState) :
  run_tracks env cfg gpx = Some st ->
  location (st_info st) = first_location (photon env) (all_segments gpx).
Proof.
  intros E. destruct (run_tracks_segments _ _ _ _ E) as (i0 & Hi & Hs).
  rewrite (process_segments_location _ _ _ _ _ Hs).
  cbn [st_info]. destruct (init_info_unset _ _ Hi) as [_ ->]. reflexivity.
Qed.

Lemma summary_location_first_witness :
  let g := mkGpx None [mkTrack None None
                         [mkSegment [wp 0 10 None; wp 100 20 None];
                          mkSegment [wp 200 10 None; wp 300 20 None];
                          mkSegment [wp 400 10 None; wp 500 20 None]]] in
  run_tracks (example_env g two_places) crate_config g
    = Some (mkRunState (mkInfo None None None (Some ", , Zurich, "%string) 300 30 0)
              [mkCoord 0 20; mkCoord 100 20; mkCoord 200 20]
              [mkPoint 0 0; mkPoint 200 0]) /\
  Some ", , Zurich, "%string = first_location two_places (all_segments g).
Proof.
  intros g.
  assert (E : run_tracks (example_env g two_places) crate_config g
    = Some (mkRunState (mkInfo None None None (Some ", , Zurich, "%string) 300 30 0)
              [mkCoord 0 20; mkCoord 100 20; mkCoord 200 20]
              [mkPoint 0 0; mkPoint 200 0])) by (vm_compute; reflexivity).
  split; [exact E|].
  exact (summary_location_first _ _ _ _ E).
Defined.


(** ** Positions of the raw elevation profile *)

Lemma waypoint_step_sample env cfg prev cur info shape :
  snd (waypoint_step env cfg prev cur info shape)
  = match elevation cur with
    | Some e => shape ++ [mkCoord (distance info) e]
    | None => shape
    end.
Proof.
  unfold waypoint_step.
  destruct (elevation cur); destruct (elevation prev); split_ifs; reflexivity.
Qed.

Lemma waypoints_loop_prefix env cfg ws : forall prev info shape,
  exists suf, snd (waypoints_loop env cfg prev ws info shape) = shape ++ suf.
Proof.
  induction ws as [|cur ws IH]; intros prev info shape.
  - exists []. rewrite app_nil_r. reflexivity.
  - cbn [waypoints_loop].
    pose proof (waypoint_step_sample env cfg prev cur info shape) as S.
    destruct (waypoint_step env cfg prev cur info shape) as [[p1 i1] s1].
    cbn [snd] in S. destruct (IH p1 i1 s1) as [suf H]. rewrite H, S.
    destruct (elevation cur) as [e|].
    + exists ([mkCoord (distance info) e] ++ suf). rewrite app_assoc. reflexivity.
    + exists suf. reflexivity.
Qed.

Lemma process_segments_prefix env cfg segs : forall st st',
  process_segments env cfg st segs = Some st' ->
  exists suf, st_shape st' = st_shape st ++ suf.
Proof.
  induction segs as [|seg segs IH]; intros st st'; cbn [process_segments].
  - intros E. injection E as <-. exists []. rewrite app_nil_r. reflexivity.
  - destruct (process_segment env cfg st seg) as [s1|] eqn:E1; [|discriminate].
    intros E. destruct (IH _ _ E) as [suf2 H2]. rewrite H2.
    destruct (process_segment_location _ _ _ _ _ E1) as (p & r & v & _ & L).
    pose proof (waypoints_loop_prefix env cfg r p
                  (set_location (match datetime (st_info st) with
                                 | None => set_datetime (st_info st) (time p)
                                 | Some _ => st_info st
                                 end) None) (st_shape st)) as [suf1 H1].
    destruct (waypoints_loop _ _ _ _ _ _) as [[p3 i3] s3].
    destruct L as [_ ->]. cbn [snd] in H1. rewrite H1.
    exists (suf1 ++ suf2). rewrite app_assoc. reflexivity.
Qed.

(** C3: the raw profile holds, in order, the elevation of every waypoint
    that is not the first of its segment and has an elevation, whether the
    filter keeps or drops it; and a sample is placed at the distance reached
    BEFORE its waypoint's own step.  So the first waypoint of the file, kept
    by construction, never has a sample, and when the first segment starts
    with [w0; w1; ...] and [w1] has elevation [e1], the first sample is
    [(0, e1)] even when [w1] is kept at a positive distance. *)
Theorem raw_profile_samples (env : Env) (cfg : Config) (gpx : Gpx) (st : RunState) :
  run_tracks env cfg gpx = Some st ->
  map cy (st_shape st) = flat_map tail_elevations (all_segments gpx) /\
  (forall w0 w1 ws rest e1,
     all_segments gpx = mkSegment (w0 :: w1 :: ws) :: rest ->
     elevation w1 = Some e1 ->
     hd_error (st_shape st) = Some (mkCoord 0 e1)).
Proof.
  intros E. split.
  - revert E. unfold run_tracks, all_segments. destruct (init_info gpx); [|discriminate].
    intros E. apply process_tracks_cy in E. exact E.
  - intros w0 w1 ws rest e1 Hsegs He1.
    destruct (run_tracks_segments _ _ _ _ E) as (i0 & Hi & Hs).
    destruct (init_info_fields _ _ Hi) as (_ & _ & _ & _ & _ & Z0 & _).
    rewrite Hsegs in Hs. cbn [process_segments] in Hs.
    destruct (process_segment env cfg (mkRunState i0 [] []) (mkSegment (w0 :: w1 :: ws)))
      as [s1|] eqn:E1; [|discriminate].
    destruct (process_segments_prefix _ _ _ _ _ Hs) as [suf Hsuf]. rewrite Hsuf.
    destruct (process_segment_location _ _ _ _ _ E1) as (p & r & v & Hp & L).
    cbn [points] in Hp. injection Hp as <- <-.
    cbn [st_info st_shape] in L.
    set (X := set_location (match datetime i0 with
                            | None => set_datetime i0 (time w0)
                            | Some _ => i0
                            end) None) in L.
    assert (HX : distance X = 0) by (subst X; rewrite set_location_datetime_distance; exact Z0).
    cbn [waypoints_loop] in L.
    pose proof (waypoint_step_sample env cfg w0 w1 X []) as S. rewrite He1 in S.
    destruct (waypoint_step env cfg w0 w1 X []) as [[p1 i1] s1'].
    cbn [snd] in S. subst s1'.
    destruct (waypoints_loop_prefix env cfg ws p1 i1 [mkCoord (distance X) e1]) as [suf1 H1].
    destruct (waypoints_loop env cfg p1 ws i1 _) as [[p3 i3] s3].
    destruct L as [_ ->]. cbn [snd] in H1. rewrite H1, HX. reflexivity.
Qed.

Lemma raw_profile_samples_witness :
  let g := one_segment [wp 0 10 None; wp 100 20 None] in
  run_tracks (example_env g no_service) crate_config g
    = Some (mkRunState (mkInfo (Some "t"%string) None None None 100 10 0) [mkCoord 0 20]
                       [mkPoint 0 0]) /\
  map cy [mkCoord 0 20] = flat_map tail_elevations (all_segments g) /\
  (forall w0 w1 ws rest e1,
     all_segments g = mkSegment (w0 :: w1 :: ws) :: rest ->
     elevation w1 = Some e1 ->
     hd_error [mkCoord 0 20] = Some (mkCoord 0 e1)).
Proof.
  intros g.
  assert (H : run_tracks (example_env g no_service) crate_config g
    = Some (mkRunState (mkInfo (Some "t"%string) None None None 100 10 0) [mkCoord 0 20]
                       [mkPoint 0 0])) by reflexivity.
  split; [exact H|].
  exact (raw_profile_samples _ _ _ _ H).
Defined.

(** ** Close waypoints *)

Lemma waypoint_step_downhill env cfg prev cur info shape :
  geodesic_distance env (wp_point prev) (wp_point cur) <= 3 ->
  0 <= elevation_threshold cfg ->
  downhill (snd (fst (waypoint_step env cfg prev cur info shape))) = downhill info.
Proof.
  intros Hg Ht. unfold waypoint_step, keeps.
  destruct (elevation cur) as [ce|]; destruct (elevation prev) as [pe|]; cbn;
    repeat match goal with |- context [if ?b then _ else _] => destruct b eqn:? end;
    cbn; rewrite ?orb_true_iff, ?orb_false_iff, ?Z.ltb_lt, ?Z.ltb_ge, ?Z.leb_le, ?Z.leb_gt in *;
    try reflexivity; lia.
Qed.

Lemma waypoint_step_prev env cfg prev cur info shape :
  fst (fst (waypoint_step env cfg prev cur info shape)) = prev \/
  fst (fst (waypoint_step env cfg prev cur info shape)) = cur.
Proof.
  unfold waypoint_step. destruct (keeps _ _ _); [|left; reflexivity].
  destruct (match elevation prev, elevation cur with Some _, Some _ => _ | _, _ => _ end).
  right. reflexivity.
Qed.

Lemma waypoints_loop_downhill env cfg (S : list Waypoint) ws : forall prev info shape,
  (forall a b, In a S -> In b S -> geodesic_distance env (wp_point a) (wp_point b) <= 3) ->
  0 <= elevation_threshold cfg ->
  In prev S -> incl ws S ->
  downhill (snd (fst (waypoints_loop env cfg prev ws info shape))) = downhill info.
Proof.
  induction ws as [|cur ws IH]; intros prev info shape Hg Ht Hp Hw; [reflexivity|].
  cbn [waypoints_loop].
  assert (Hc : In cur S) by (apply Hw; left; reflexivity).
  pose proof (waypoint_step_downhill env cfg prev cur info shape (Hg _ _ Hp Hc) Ht) as D.
  pose proof (waypoint_step_prev env cfg prev cur info shape) as P.
  destruct (waypoint_step env cfg prev cur info shape) as [[p1 i1] s1].
  cbn in D, P. rewrite <- D. apply IH; [exact Hg|exact Ht| |].
  - destruct P as [-> | ->]; assumption.
  - intros x Hx. apply Hw. right. exact Hx.
Qed.

Lemma set_location_datetime_downhill (i : GpxInfo) t :
  downhill (set_location (match datetime i with
                          | None => set_datetime i t
                          | Some _ => i
                          end) None) = downhill i.
Proof. destruct i as [n d [dt|] l x u w]; reflexivity. Qed.

Lemma process_segments_downhill env cfg segs : forall st st',
  (forall seg, In seg segs -> forall a b, In a (points seg) -> In b (points seg) ->
     geodesic_distance env (wp_point a) (wp_point b) <= 3) ->
  0 <= elevation_threshold cfg ->
  process_segments env cfg st segs = Some st' ->
  downhill (st_info st') = downhill (st_info st).
Proof.
  induction segs as [|seg segs IH]; intros st st' Hg Ht; cbn [process_segments].
  - intros E. injection E as <-. reflexivity.
  - destruct (process_segment env cfg st seg) as [s1|] eqn:E1; [|discriminate].
    intros E. rewrite (IH _ _ (fun s Hs => Hg s (or_intror Hs)) Ht E).
    destruct (process_segment_location _ _ _ _ _ E1) as (p & r & v & Hp & L).
    pose proof (waypoints_loop_downhill env cfg (points seg) r p
                  (set_location (match datetime (st_info st) with
                                 | None => set_datetime (st_info st) (time p)
                                 | Some _ => st_info st
                                 end) None) (st_shape st)
                  (Hg seg (or_introl eq_refl)) Ht) as W.
    rewrite Hp in W. specialize (W (or_introl eq_refl) (fun x Hx => or_intror Hx)).
    rewrite set_location_datetime_downhill in W.
    destruct (waypoints_loop _ _ _ _ _ _) as [[p3 i3] s3].
    destruct L as [-> _]. cbn in W. rewrite <- W. destruct i3; reflexivity.
Qed.

(** When no two waypoints of the same segment are more than 3 m apart, a
    step is kept only on a climb above the (non-negative) elevation
    threshold, so [open] never records a descent: the summary's downhill is
    0 whatever the elevations. *)
Theorem open_no_downhill_when_close (env : Env) (cfg : Config) (path : string) (gpx : Gpx)
    (info : GpxInfo) :
  (forall seg, In seg (all_segments gpx) -> forall a b, In a (points seg) -> In b (points seg) ->
     geodesic_distance env (wp_point a) (wp_point b) <= 3) ->
  0 <= elevation_threshold cfg ->
  fs_read env path = Parsed gpx ->
  open env cfg path = Ok info ->
  downhill info = 0.
Proof.
  intros Hg Ht Hr Ho. destruct (open_ok_run _ _ _ _ _ Hr Ho) as (st & E & <-).
  destruct (run_tracks_segments _ _ _ _ E) as (i0 & Hi & Hs).
  destruct (init_info_fields _ _ Hi) as (_ & _ & _ & _ & _ & _ & _ & Z0).
  rewrite (process_segments_downhill _ _ _ _ _ Hg Ht Hs). exact Z0.
Qed.

Lemma open_no_downhill_when_close_witness :
  let g := one_segment [wp 0 10 None; wp 1 50 None; wp 2 20 None; wp 3 60 None] in
  let e := example_env g no_service in
  (forall seg, In seg (all_segments g) -> forall a b, In a (points seg) -> In b (points seg) ->
     geodesic_distance e (wp_point a) (wp_point b) <= 3) /\
  0 <= elevation_threshold root_config /\
  fs_read e "f" = Parsed g /\
  open e root_config "f" = Ok (mkInfo (Some "t"%string) None None None 3 50 0) /\
  downhill (mkInfo (Some "t"%string) None None None 3 50 0) = 0.
Proof.
  intros g e.
  assert (Hg : forall seg, In seg (all_segments g) -> forall a b, In a (points seg) ->
             In b (points seg) -> geodesic_distance e (wp_point a) (wp_point b) <= 3).
  { intros seg Hseg a b Ha Hb. cbn in Hseg. destruct Hseg as [<-|[]].
    cbn in Ha, Hb.
    destruct Ha as [<-|[<-|[<-|[<-|[]]]]]; destruct Hb as [<-|[<-|[<-|[<-|[]]]]];
      vm_compute; intros H; discriminate H. }
  assert (Ht : 0 <= elevation_threshold root_config) by (cbn; lia).
  assert (Hr : fs_read e "f" = Parsed g) by reflexivity.
  assert (Ho : open e root_config "f" = Ok (mkInfo (Some "t"%string) None None None 3 50 0))
    by (vm_compute; reflexivity).
  split; [exact Hg|]. split; [exact Ht|]. split; [exact Hr|]. split; [exact Ho|].
  exact (open_no_downhill_when_close _ _ _ _ _ Hg Ht Hr Ho).
Defined.

(** ** The two variants on spread-out waypoints *)

Lemma waypoints_loop_spread env c1 c2 ws : forall prev info shape,
  ForallOrdPairs (fun a b => 3 < geodesic_distance env (wp_point a) (wp_point b)) (prev :: ws) ->
  waypoints_loop env c1 prev ws info shape = waypoints_loop env c2 prev ws info shape.
Proof.
  induction ws as [|cur ws IH]; intros prev info shape H; [reflexivity|].
  inversion H as [|? ? Hf Hp]; subst. inversion Hf as [|? ? Hpc _]; subst.
  assert (K : forall c df,
             keeps c (geodesic_distance env (wp_point prev) (wp_point cur)) df = true).
  { intros c df. unfold keeps. apply Z.ltb_lt in Hpc. rewrite Hpc. reflexivity. }
  cbn [waypoints_loop]. unfold waypoint_step. cbv zeta. rewrite !K.
  destruct (match elevation prev, elevation cur with Some _, Some _ => _ | _, _ => _ end)
    as [u w].
  apply IH. exact Hp.
Qed.

Lemma process_segments_spread env c1 c2 segs : forall st,
  (forall seg, In seg segs ->
     ForallOrdPairs (fun a b => 3 < geodesic_distance env (wp_point a) (wp_point b))
       (points seg)) ->
  process_segments env c1 st segs = process_segments env c2 st segs.
Proof.
  induction segs as [|seg segs IH]; intros st H; [reflexivity|].
  cbn [process_segments].
  replace (process_segment env c1 st seg) with (process_segment env c2 st seg).
  - destruct (process_segment env c2 st seg); [|reflexivity].
    apply IH. intros s Hs. apply H. right. exact Hs.
  - pose proof (H seg (or_introl eq_refl)) as Hseg.
    unfold process_segment. destruct (points seg) as [|prev rest]; [reflexivity|].
    destruct (match location _ with None => _ | Some _ => _ end).
    rewrite (waypoints_loop_spread env c1 c2 rest prev _ _ Hseg). reflexivity.
Qed.

(** The two variants of [open] (threshold 3 m in the root crate, 30 m in
    the spurilo crate) differ only on waypoints at most 3 m apart: when any
    two waypoints of a segment are farther apart than that, both keep every
    waypoint, and when both succeed they return the same summary. *)
Theorem open_variants_agree_when_spread (env : Env) (path : string) (gpx : Gpx)
    (i1 i2 : GpxInfo) :
  (forall seg, In seg (all_segments gpx) ->
     ForallOrdPairs (fun a b => 3 < geodesic_distance env (wp_point a) (wp_point b))
       (points seg)) ->
  fs_read env path = Parsed gpx ->
  open env root_config path = Ok i1 ->
  open env crate_config path = Ok i2 ->
  i1 = i2.
Proof.
  intros Hsp Hr. unfold open. rewrite Hr, !run_tracks_unfold.
  destruct (init_info gpx) as [info|].
  - rewrite (process_segments_spread env root_config crate_config _ _ Hsp).
    destruct (process_segments env crate_config _ _) as [st|];
      cbn [draws root_config crate_config andb];
      destruct (negb (graphics_ok env)); try (intros; discriminate).
    destruct (simplified_totals _); destruct (simplified_totals _); intros E1 E2; congruence.
  - cbn [draws root_config crate_config andb]. intros; discriminate.
Qed.

Lemma open_variants_agree_when_spread_witness :
  let g := one_segment [wp 0 10 None; wp 10 12 None; wp 20 5 None] in
  let e := example_env g no_service in
  (forall seg, In seg (all_segments g) ->
     ForallOrdPairs (fun a b => 3 < geodesic_distance e (wp_point a) (wp_point b))
       (points seg)) /\
  fs_read e "f" = Parsed g /\
  open e root_config "f" = Ok (mkInfo (Some "t"%string) None None None 20 2 7) /\
  open e crate_config "f" = Ok (mkInfo (Some "t"%string) None None None 20 2 7) /\
  mkInfo (Some "t"%string) None None None 20 2 7 = mkInfo (Some "t"%string) None None None 20 2 7.
Proof.
  intros g e.
  assert (Hsp : forall seg, In seg (all_segments g) ->
     ForallOrdPairs (fun a b => 3 < geodesic_distance e (wp_point a) (wp_point b))
       (points seg)).
  { intros seg Hseg. cbn in Hseg. destruct Hseg as [<-|[]].
    repeat constructor. }
  assert (Hr : fs_read e "f" = Parsed g) by reflexivity.
  assert (E1 : open e root_config "f" = Ok (mkInfo (Some "t"%string) None None None 20 2 7))
    by (vm_compute; reflexivity).
  assert (E2 : open e crate_config "f" = Ok (mkInfo (Some "t"%string) None None None 20 2 7))
    by (vm_compute; reflexivity).
  split; [exact Hsp|]. split; [exact Hr|]. split; [exact E1|]. split; [exact E2|].
  exact (open_variants_agree_when_spread _ _ _ _ _ Hsp Hr E1 E2).
Defined.
